(** * Warehouse order picker: a shallow embedding of [app/service.py]

    The class [OrderPicker] keeps two pieces of mutable state, the backlog
    [self.orders] (a Python list of dicts) and [self.inventory] (a Python
    dict from item to quantity).  Its two methods are embedded as
    computations in a state-and-exception monad: a call takes the object's
    state and gives back either a value or the raised exception, together
    with the state left behind (Python keeps every mutation made before an
    exception is raised).

    Field values are the JSON scalars the data model of the service uses:
    integers (unbounded, as Python's [int]) and strings (byte strings; the
    lexicographic order on UTF-8 bytes is the code-point order Python uses
    to compare [str]).  Comparing an integer with a string raises
    [TypeError], as in Python 3.  The constructor only checks that it is
    given a list and a dict, which the types of the record [OrderPicker]
    already say; it stores both as they are. *)

From Stdlib Require Import ZArith Lia.
From stdpp Require Import base option list sorting strings gmap.

Local Open Scope Z_scope.

(** ** Values, exceptions, results *)

Inductive value : Type :=
| VInt (n : Z)
| VStr (s : string).

#[global] Instance value_eq_dec : EqDecision value.
Proof. solve_decision. Defined.

Definition value_to_sum (v : value) : Z + string :=
  match v with VInt n => inl n | VStr s => inr s end.

Definition value_of_sum (x : Z + string) : value :=
  match x with inl n => VInt n | inr s => VStr s end.

#[global] Instance value_countable : Countable value.
Proof.
  apply (inj_countable' value_to_sum value_of_sum).
  intros []; reflexivity.
Defined.

Inductive exn : Type :=
| KeyError (k : value)
| TypeError
| IndexError
| ValueError (msg : string).

Inductive result (A : Type) : Type :=
| Ok (a : A)
| Raise (e : exn).
Arguments Ok {A} a.
Arguments Raise {A} e.

#[global] Instance result_ret : MRet result := @Ok.
#[global] Instance result_bind : MBind result := λ A B f r,
  match r with Ok a => f a | Raise e => Raise e end.

(** An order is the dict that was submitted, kept as it came. *)
Abbreviation order := (gmap string value).

Record OrderPicker : Type := mkOrderPicker {
  orders : list order;
  inventory : gmap value Z
}.

(** ** The monad of method bodies *)

Definition M (A : Type) : Type := OrderPicker → result A * OrderPicker.

#[global] Instance M_ret : MRet M := λ A a self, (Ok a, self).
#[global] Instance M_bind : MBind M := λ A B f m self,
  match m self with
  | (Ok a, self') => f a self'
  | (Raise e, self') => (Raise e, self')
  end.

Definition lift {A} (r : result A) : M A := λ self, (r, self).
Definition get_self : M OrderPicker := λ self, (Ok self, self).

(** ** Python primitives used by the class *)

(** [d[k]] on a dict with string keys. *)
Definition getitem (d : order) (k : string) : result value :=
  match d !! k with
  | Some v => Ok v
  | None => Raise (KeyError (VStr k))
  end.

(** [d.get(k, dflt)]. *)
Definition dict_get {V} (d : gmap value V) (k : value) (dflt : V) : V :=
  default dflt (d !! k).

(** [n >= v] for an integer [n]. *)
Definition int_ge (n : Z) (v : value) : result bool :=
  match v with
  | VInt q => Ok (q <=? n)
  | VStr _ => Raise TypeError
  end.

(** [n - v] for an integer [n]. *)
Definition int_sub (n : Z) (v : value) : result Z :=
  match v with
  | VInt q => Ok (n - q)
  | VStr _ => Raise TypeError
  end.

(** [a < b] on values. *)
Definition value_lt (a b : value) : result bool :=
  match a, b with
  | VInt x, VInt y => Ok (x <? y)
  | VStr x, VStr y => Ok (String.ltb x y)
  | _, _ => Raise TypeError
  end.

(** [a < b] on the 2-tuples used as sort keys: the first component at which
    the tuples differ (by [==], which never raises) decides, by [<]. *)
Definition key_lt (a b : Z * value) : result bool :=
  if decide (a.1 = b.1) then
    if decide (a.2 = b.2) then Ok false else value_lt a.2 b.2
  else Ok (a.1 <? b.1).

(** [[x for x in l if p(x)]], evaluated left to right. *)
Fixpoint filter_m {A} (p : A → result bool) (l : list A) : result (list A) :=
  match l with
  | [] => Ok []
  | x :: l' =>
      b ← p x;
      r ← filter_m p l';
      Ok (if b : bool then x :: r else r)
  end.

(** [[f(x) for x in l]], evaluated left to right. *)
Fixpoint map_m {A B} (f : A → result B) (l : list A) : result (list B) :=
  match l with
  | [] => Ok []
  | x :: l' =>
      y ← f x;
      r ← map_m f l';
      Ok (y :: r)
  end.

(** [sorted(l, key=key)].  Python computes every key first, then sorts the
    keys with [<] only, moving the elements along; the sort is stable.  On
    keys that are pairwise comparable the outcome of a stable sort does not
    depend on the algorithm; it is computed here by insertion, an element
    going in front of the first one of the already sorted rest that is not
    smaller than it.  A comparison that raises aborts the sort. *)
Fixpoint insert_m {K A} (lt : K → K → result bool)
    (x : K * A) (l : list (K * A)) : result (list (K * A)) :=
  match l with
  | [] => Ok [x]
  | y :: l' =>
      b ← lt y.1 x.1;
      if b : bool then r ← insert_m lt x l'; Ok (y :: r)
      else Ok (x :: y :: l')
  end.

Fixpoint sort_m {K A} (lt : K → K → result bool)
    (l : list (K * A)) : result (list (K * A)) :=
  match l with
  | [] => Ok []
  | x :: l' => s ← sort_m lt l'; insert_m lt x s
  end.

Definition sorted {K A} (lt : K → K → result bool) (key : A → result K)
    (l : list A) : result (list A) :=
  keyed ← map_m (λ x, k ← key x; Ok (k, x)) l;
  s ← sort_m lt keyed;
  Ok (s.*2).

(** [l[0]]. *)
Definition index0 {A} (l : list A) : result A :=
  match l with
  | [] => Raise IndexError
  | x :: _ => Ok x
  end.

(** ** class OrderPicker *)

Definition CATEGORY_PRIORITY : gmap value Z :=
  {[ VStr "perishable" := 0; VStr "non_perishable" := 1 ]}.

Definition required_field : list string :=
  ["item"; "quantity"; "category"; "timestamp"].

(** [submit_order(self, order)] *)
Definition submit_order (order : order) : M unit := λ self,
  let missing := filter (λ f, order !! f = None) required_field in
  match missing with
  | _ :: _ =>
      (Raise (ValueError ("Missing field:" +:+ String.concat "," missing)), self)
  | [] =>
      (Ok tt, {| orders := orders self ++ [order]; inventory := inventory self |})
  end.

(** The condition of the comprehension on line 20. *)
Definition is_available (inv : gmap value Z) (o : order) : result bool :=
  item ← getitem o "item";
  quantity ← getitem o "quantity";
  int_ge (dict_get inv item 0) quantity.

(** The key of the sort on line 21. *)
Definition priority (category : value) : Z :=
  dict_get CATEGORY_PRIORITY category 0.

Definition sort_key (o : order) : result (Z * value) :=
  category ← getitem o "category";
  timestamp ← getitem o "timestamp";
  Ok (priority category, timestamp).

(** Lines 20 to 22: what the method reads before it writes. *)
Definition available_order (self : OrderPicker) : result (list order) :=
  filter_m (is_available (inventory self)) (orders self).

Definition sorted_order (self : OrderPicker) : result (list order) :=
  available ← available_order self;
  sorted key_lt sort_key available.

Definition selected (self : OrderPicker) : result order :=
  ranked ← sorted_order self;
  index0 ranked.

(** [self.inventory[k] -= q]: the entry is read (KeyError when absent)
    before [q] is evaluated, and written after the subtraction. *)
Definition inventory_isub (k : value) (q : result value) : M unit := λ self,
  match inventory self !! k with
  | None => (Raise (KeyError k), self)
  | Some n =>
      match q ≫= int_sub n with
      | Ok n' =>
          (Ok tt, {| orders := orders self; inventory := <[k := n']> (inventory self) |})
      | Raise e => (Raise e, self)
      end
  end.

(** [next_order(self)] *)
Definition next_order : M order :=
  self ← get_self;
  next_order ← lift (selected self);
  item ← lift (getitem next_order "item");
  inventory_isub item (getitem next_order "quantity");;
  mret next_order.

(** ** Runs on concrete states *)

Definition mk_order (item : string) (quantity : Z) (category timestamp : string)
  : order :=
  {[ "item" := VStr item; "quantity" := VInt quantity;
     "category" := VStr category; "timestamp" := VStr timestamp ]}.

(** The store the service starts from ([app/routes.py]). *)
Definition routes_inventory : gmap value Z :=
  {[ VStr "apple" := 29; VStr "bread" := 12; VStr "Milk" := 5 ]}.

Definition routes_picker : OrderPicker :=
  {| orders := []; inventory := routes_inventory |}.

Definition bread_short : OrderPicker :=
  {| orders := [mk_order "bread" 2 "perishable" "2024-01-01"];
     inventory := {[ VStr "bread" := 1 ]} |}.

Definition pear_for_nothing : OrderPicker :=
  {| orders := [mk_order "pear" 0 "perishable" "2024-01-01"];
     inventory := routes_inventory |}.

Definition kiwi_first : OrderPicker :=
  {| orders := [mk_order "kiwi" 0 "perishable" "2024-03-01";
                mk_order "apple" 1 "non_perishable" "2024-01-01"];
     inventory := routes_inventory |}.

Definition two_apples : OrderPicker :=
  {| orders := [mk_order "apple" 3 "perishable" "2024-01-02";
                mk_order "apple" 2 "non_perishable" "2024-01-01"];
     inventory := {[ VStr "apple" := 5 ]} |}.

Definition tie_break : OrderPicker :=
  {| orders := [mk_order "apple" 1 "non_perishable" "2024-01-01";
                mk_order "bread" 1 "perishable" "2024-01-05";
                mk_order "Milk" 9 "perishable" "2024-01-02";
                mk_order "apple" 2 "perishable" "2024-01-05"];
     inventory := routes_inventory |}.

Definition refund_first : OrderPicker :=
  {| orders := [mk_order "apple" (-1) "non_perishable" "2024-01-01";
                mk_order "apple" 2 "perishable" "2024-01-02"];
     inventory := {[ VStr "apple" := 1 ]} |}.

(** ** Consecutive calls *)

(** [n] calls of [next_order] in a row, nothing else touching the object:
    the outcomes in order, and the state left by the last call. *)
Fixpoint next_orders (n : nat) (self : OrderPicker)
  : list (result order) * OrderPicker :=
  match n with
  | O => ([], self)
  | S n' =>
      let '(r, self') := next_order self in
      let '(rs, self'') := next_orders n' self' in
      (r :: rs, self'')
  end.

(** What a successful call leaves behind. *)
Definition debited (self : OrderPicker) (i : value) (n : Z) : OrderPicker :=
  {| orders := orders self; inventory := <[i := n]> (inventory self) |}.

(** ** Notions used in the statements *)

#[global] Instance exn_eq_dec : EqDecision exn.
Proof. solve_decision. Defined.

#[global] Instance result_eq_dec {A} `{EqDecision A} : EqDecision (result A).
Proof. solve_decision. Defined.

(** Python's [<] on values is partial.  [value_ltb] is a total strict order
    that agrees with it wherever it answers (integers before strings
    otherwise); it is only used to reason about sorts that went through. *)
Definition value_ltb (a b : value) : bool :=
  match a, b with
  | VInt x, VInt y => x <? y
  | VInt _, VStr _ => true
  | VStr _, VInt _ => false
  | VStr x, VStr y => String.ltb x y
  end.

Definition key_ltb (a b : Z * value) : bool :=
  (a.1 <? b.1) || ((a.1 =? b.1) && value_ltb a.2 b.2).

(** The sort of [sort_m] when no comparison raises. *)
Fixpoint insert {K A} (ltb : K → K → bool)
    (x : K * A) (l : list (K * A)) : list (K * A) :=
  match l with
  | [] => [x]
  | y :: l' => if ltb y.1 x.1 then y :: insert ltb x l' else x :: y :: l'
  end.

Fixpoint isort {K A} (ltb : K → K → bool) (l : list (K * A)) : list (K * A) :=
  match l with
  | [] => []
  | x :: l' => insert ltb x (isort ltb l')
  end.

(** [x] is the first of the elements of [l] with the least key. *)
Definition first_min {K A} (ltb : K → K → bool)
    (l : list (K * A)) (x : K * A) : Prop :=
  ∃ l1 l2, l = l1 ++ x :: l2 ∧
    Forall (λ y, ltb x.1 y.1 = true) l1 ∧
    Forall (λ y, ltb y.1 x.1 = false) l2.

(** No comparison raises on [l]. *)
Definition comparable {K A} (lt : K → K → result bool)
    (l : list (K * A)) : Prop :=
  ∀ x y, x ∈ l → y ∈ l → ∃ r, lt x.1 y.1 = Ok r.

(** The comprehension on line 20 keeps [o]. *)
Definition eligible (self : OrderPicker) (o : order) : Prop :=
  is_available (inventory self) o = Ok true.

#[global] Instance eligible_dec self o : Decision (eligible self o).
Proof. unfold eligible. apply _. Defined.

(** [o] sits in the backlog, is eligible, and among the eligible orders
    those before it have a strictly larger key, those after it a key that
    is not smaller. *)
Definition picks (self : OrderPicker) (o : order) : Prop :=
  ∃ l1 l2 k, orders self = l1 ++ o :: l2 ∧ eligible self o ∧ sort_key o = Ok k ∧
    Forall (λ o', eligible self o' →
                  ∃ k', sort_key o' = Ok k' ∧ key_ltb k k' = true) l1 ∧
    Forall (λ o', eligible self o' →
                  ∃ k', sort_key o' = Ok k' ∧ key_ltb k' k = false) l2.

(** The shape of an order of the data model: the four fields are there,
    the quantity is an integer, and the timestamp is a string
    ([str_ts = true]) or an integer ([str_ts = false]), the same kind for
    the whole backlog. *)
Definition is_str (v : value) : bool :=
  match v with VStr _ => true | VInt _ => false end.

Definition asks_quantity (o : order) : bool :=
  match o !! "item", o !! "quantity" with
  | Some _, Some (VInt _) => true
  | _, _ => false
  end.

Definition wf_order (str_ts : bool) (o : order) : bool :=
  asks_quantity o &&
  match o !! "category", o !! "timestamp" with
  | Some _, Some t => bool_decide (is_str t = str_ts)
  | _, _ => false
  end.

Definition well_formed (str_ts : bool) (self : OrderPicker) : bool :=
  forallb (wf_order str_ts) (orders self).

(** The eligible subset as the specification words it: the item's inventory
    quantity is at least the order's quantity, an item without inventory
    entry counting for quantity 0. *)
Definition spec_eligible (inv : gmap value Z) (o : order) : bool :=
  match o !! "item", o !! "quantity" with
  | Some i, Some (VInt q) =>
      match inv !! i with
      | Some n => q <=? n
      | None => q <=? 0
      end
  | _, _ => false
  end.

(** ** The constructor *)

(** What [OrderPicker(orders, inventory)] may be handed: a list of order
    dicts, a dict of quantities, or something that is neither. *)
Inductive pyarg : Type :=
| ArgList (l : list order)
| ArgDict (d : gmap value Z)
| ArgOther (v : value).

(** [__init__(self, orders, inventory)] *)
Definition init (orders inventory : pyarg) : result OrderPicker :=
  match orders with
  | ArgList l =>
      match inventory with
      | ArgDict d => Ok {| orders := l; inventory := d |}
      | _ => Raise (ValueError "inventory must be a dictionary with item quantities")
      end
  | _ => Raise (ValueError "Orders must be a list")
  end.

(** ** app/routes.py *)

(** A response is the pair Flask is handed: the one-entry JSON object given
    to [jsonify] and the status code.  The entry's value is a string or the
    order that is served. *)
Inductive payload : Type :=
| PStr (s : string)
| POrder (o : order).

Record response : Type := mkResponse {
  body : string * payload;
  status : Z
}.

Definition jsonify (key : string) (v : payload) (code : Z) : response :=
  {| body := (key, v); status := code |}.

(** Truth value of a dict: it has an entry. *)
Definition dict_truthy (d : order) : bool := negb (bool_decide (d = ∅)).

(** Truth value of what [request.get_json()] gave: a JSON object, or
    [None] for the body [null]. *)
Definition truthy (data : option order) : bool :=
  match data with
  | Some d => dict_truthy d
  | None => false
  end.

(** The handlers act on the module-level picker; [print] calls are left
    out.  The exception handlers are tried in the order of the source. *)
Module routes.

Definition scheduled_manager_order : result OrderPicker :=
  init (ArgList []) (ArgDict routes_inventory).

(** [add_order()]; [data] is what [request.get_json()] returned. *)
Definition add_order (data : option order) (picker : OrderPicker)
  : response * OrderPicker :=
  match data with
  | Some d =>
      if truthy data then
        match submit_order d picker with
        | (Ok _, picker') =>
            (jsonify "message" (PStr "order added successfully") 201, picker')
        | (Raise (ValueError ve), picker') =>
            (jsonify "error" (PStr ve) 400, picker')
        | (Raise _, picker') =>
            (jsonify "error"
               (PStr "An internal server error occurred.Please try again later")
               500, picker')
        end
      else
        (jsonify "error" (PStr "Request Body must contain JSON data") 400, picker)
  | None =>
      (jsonify "error" (PStr "Request Body must contain JSON data") 400, picker)
  end.

(** [next_order()] *)
Definition next_order (picker : OrderPicker) : response * OrderPicker :=
  match next_order picker with
  | (Ok order, picker') =>
      if dict_truthy order then
        (jsonify "order_to_fulfill" (POrder order) 200, picker')
      else
        (jsonify "message" (PStr "No orders available or stock insufficient")
           200, picker')
  | (Raise _, picker') =>
      (jsonify "error"
         (PStr "An internal server error occurred.Please try again later ")
         500, picker')
  end.

End routes.

(** The application: requests are served one after the other, each by the
    handler its route names, on the picker the previous one left. *)
Inductive request : Type :=
| POST_add_order (data : option order)
| GET_next_order.

Definition handle (r : request) (picker : OrderPicker)
  : response * OrderPicker :=
  match r with
  | POST_add_order data => routes.add_order data picker
  | GET_next_order => routes.next_order picker
  end.

Fixpoint serve (rs : list request) (picker : OrderPicker)
  : list response * OrderPicker :=
  match rs with
  | [] => ([], picker)
  | r :: rs' =>
      let '(a, picker') := handle r picker in
      let '(rest, picker'') := serve rs' picker' in
      (a :: rest, picker'')
  end.

(** ** Notions used in the statements about runs *)

(** The candidate carries the four required keys. *)
Definition complete (d : order) : bool :=
  forallb (λ f, bool_decide (is_Some (d !! f))) required_field.

(** The order a request adds to the backlog, if any. *)
Definition accepted (r : request) : option order :=
  match r with
  | POST_add_order (Some d) => if complete d then Some d else None
  | _ => None
  end.

(** What the returned orders among [rs] took from the stock of [i]. *)
Definition debit_of (i : value) (r : result order) : Z :=
  match r with
  | Ok o =>
      match o !! "item", o !! "quantity" with
      | Some j, Some (VInt q) => if decide (j = i) then q else 0
      | _, _ => 0
      end
  | Raise _ => 0
  end.

Definition debits (i : value) (rs : list (result order)) : Z :=
  foldr (λ r acc, debit_of i r + acc) 0 rs.

Definition is_Ok {A} (r : result A) : bool :=
  match r with Ok _ => true | Raise _ => false end.

(** The sum of all inventory quantities. *)
Definition total_stock (inv : gmap value Z) : Z :=
  map_fold (λ _ n acc, n + acc) 0 inv.

(** The generic answer of [GET /next_order] to any exception. *)
Definition next_order_failed : response :=
  jsonify "error"
    (PStr "An internal server error occurred.Please try again later ") 500.

(** In a ranking, [a] may stand before [b]: [b]'s key is not smaller. *)
Definition not_after {K A} (ltb : K → K → bool) (a b : K * A) : Prop :=
  ltb b.1 a.1 = false.

(** The same on orders, with Python's own [<] on their keys. *)
Definition ranks_before (a b : order) : Prop :=
  ∀ ka kb, sort_key a = Ok ka → sort_key b = Ok kb → key_lt kb ka ≠ Ok true.

(** ** A run of the scenario of the specification *)

Example run_priority_beats_timestamp :
  let a := mk_order "apple" 3 "perishable" "2024-01-02" in
  let b := mk_order "apple" 2 "non_perishable" "2024-01-01" in
  next_order {| orders := [a; b]; inventory := {[ VStr "apple" := 5 ]} |}
  = (Ok a, {| orders := [a; b]; inventory := {[ VStr "apple" := 2 ]} |}).
Proof. vm_compute. reflexivity. Qed.

(** ** The order on sort keys *)

Section string_order.

Lemma ascii_compare_refl a : Ascii.compare a a = Eq.
Proof. unfold Ascii.compare. apply N.compare_refl. Qed.

Lemma ascii_compare_lt_trans a b c :
  Ascii.compare a b = Lt → Ascii.compare b c = Lt → Ascii.compare a c = Lt.
Proof.
  unfold Ascii.compare. rewrite !N.compare_lt_iff. intros; etrans; eauto.
Qed.

Lemma string_compare_refl s : String.compare s s = Eq.
Proof.
  induction s as [|a s IH]; simpl; [done|].
  by rewrite ascii_compare_refl.
Qed.

Lemma string_compare_lt_trans s1 s2 s3 :
  String.compare s1 s2 = Lt → String.compare s2 s3 = Lt →
  String.compare s1 s3 = Lt.
Proof.
  revert s2 s3. induction s1 as [|a s1 IH]; intros [|b s2] [|c s3]; simpl;
    try done.
  destruct (Ascii.compare a b) eqn:Hab; try done;
    destruct (Ascii.compare b c) eqn:Hbc; try done; intros H1 H2.
  - apply Ascii.compare_eq_iff in Hab as ->. rewrite Hbc. eauto.
  - apply Ascii.compare_eq_iff in Hab as ->. by rewrite Hbc.
  - apply Ascii.compare_eq_iff in Hbc as <-. by rewrite Hab.
  - by rewrite (ascii_compare_lt_trans a b c).
Qed.

Lemma string_ltb_irrefl s : String.ltb s s = false.
Proof. unfold String.ltb. by rewrite string_compare_refl. Qed.

Lemma string_ltb_trans s1 s2 s3 :
  String.ltb s1 s2 = true → String.ltb s2 s3 = true → String.ltb s1 s3 = true.
Proof.
  unfold String.ltb. intros H1 H2.
  rewrite (string_compare_lt_trans s1 s2 s3); [done| |].
  - by destruct (String.compare s1 s2).
  - by destruct (String.compare s2 s3).
Qed.

Lemma string_ltb_total s1 s2 :
  String.ltb s1 s2 = false → String.ltb s2 s1 = false → s1 = s2.
Proof.
  unfold String.ltb. rewrite (String.compare_antisym s2 s1).
  destruct (String.compare s1 s2) eqn:H; simpl; try done.
  intros _ _. by apply String.compare_eq_iff.
Qed.

End string_order.

Lemma value_ltb_irrefl a : value_ltb a a = false.
Proof. destruct a; simpl; [apply Z.ltb_irrefl | apply string_ltb_irrefl]. Qed.

Lemma value_ltb_trans a b c :
  value_ltb a b = true → value_ltb b c = true → value_ltb a c = true.
Proof.
  destruct a, b, c; simpl; try done.
  - rewrite !Z.ltb_lt. lia.
  - apply string_ltb_trans.
Qed.

Lemma value_ltb_total a b :
  value_ltb a b = false → value_ltb b a = false → a = b.
Proof.
  destruct a, b; simpl; try done.
  - rewrite !Z.ltb_ge. intros. f_equal. lia.
  - intros. f_equal. by apply string_ltb_total.
Qed.

Lemma key_ltb_irrefl a : key_ltb a a = false.
Proof.
  unfold key_ltb. rewrite Z.ltb_irrefl, value_ltb_irrefl.
  by rewrite andb_false_r.
Qed.

Lemma key_ltb_spec a b :
  key_ltb a b = true ↔ a.1 < b.1 ∨ (a.1 = b.1 ∧ value_ltb a.2 b.2 = true).
Proof.
  unfold key_ltb.
  rewrite orb_true_iff, andb_true_iff, Z.ltb_lt, Z.eqb_eq. tauto.
Qed.

Lemma key_ltb_trans a b c :
  key_ltb a b = true → key_ltb b c = true → key_ltb a c = true.
Proof.
  rewrite !key_ltb_spec. intros [?|[? Hab]] [?|[? Hbc]]; try (left; lia).
  right. split; [lia|]. eapply value_ltb_trans; eauto.
Qed.

Lemma key_ltb_total a b :
  key_ltb a b = false → key_ltb b a = false → a = b.
Proof.
  destruct a as [p t], b as [p' t']. unfold key_ltb; simpl.
  rewrite !orb_false_iff, !andb_false_iff, !Z.ltb_ge, !Z.eqb_neq.
  intros [? [?|Hab]] [? [?|Hba]]; try lia.
  f_equal; [lia | by apply value_ltb_total].
Qed.

(** Where Python's comparison answers, [key_ltb] gives the same answer. *)
Lemma value_lt_ltb a b r : value_lt a b = Ok r → r = value_ltb a b.
Proof. destruct a, b; simpl; congruence. Qed.

Lemma key_lt_ltb a b r : key_lt a b = Ok r → r = key_ltb a b.
Proof.
  unfold key_lt, key_ltb. destruct a as [p t], b as [p' t']; simpl.
  case_decide as Hp; [subst p'|].
  - rewrite Z.ltb_irrefl, Z.eqb_refl; simpl.
    case_decide as Ht; [subst t'|].
    + rewrite value_ltb_irrefl. congruence.
    + apply value_lt_ltb.
  - intros [= <-]. destruct (Z.eqb_spec p p'); [done|].
    by rewrite andb_false_l, orb_false_r.
Qed.

(** ** Stable sorting: who comes first *)

Section first_of_stable_sort.
Context {K A : Type}.
Variable ltb : K → K → bool.
Hypothesis ltb_irrefl : ∀ a, ltb a a = false.
Hypothesis ltb_trans : ∀ a b c, ltb a b = true → ltb b c = true → ltb a c = true.
Hypothesis ltb_total : ∀ a b, ltb a b = false → ltb b a = false → a = b.

Lemma ltb_asym a b : ltb a b = true → ltb b a = false.
Proof.
  intros Hab. destruct (ltb b a) eqn:Hba; [|done].
  by rewrite <-(ltb_irrefl a), (ltb_trans a b a).
Qed.

Lemma not_ltb_trans a b c :
  ltb b a = false → ltb c b = false → ltb c a = false.
Proof.
  intros Hba Hcb. destruct (ltb c a) eqn:Hca; [|done].
  destruct (ltb a b) eqn:Hab.
  - by rewrite <-Hcb, (ltb_trans c a b).
  - rewrite (ltb_total a b Hab Hba) in Hca. congruence.
Qed.

Lemma insert_perm (x : K * A) l : insert ltb x l ≡ₚ x :: l.
Proof.
  induction l as [|y l IH]; simpl; [done|].
  destruct (ltb y.1 x.1); [|done].
  by rewrite IH, Permutation_swap.
Qed.

Lemma isort_perm (l : list (K * A)) : isort ltb l ≡ₚ l.
Proof.
  induction l as [|x l IH]; simpl; [done|].
  by rewrite insert_perm, IH.
Qed.

Lemma isort_head (l : list (K * A)) x s :
  isort ltb l = x :: s → first_min ltb l x.
Proof.
  revert x s. induction l as [|a l IH]; intros x s; simpl; [done|].
  destruct (isort ltb l) as [|m r] eqn:Hs; simpl.
  - intros [= <- <-]. exists [], l.
    pose proof (isort_perm l) as Hp. rewrite Hs in Hp.
    apply Permutation_nil_l in Hp as <-.
    split_and!; [done|constructor|constructor].
  - destruct (IH m r eq_refl) as (l1 & l2 & -> & H1 & H2).
    destruct (ltb m.1 a.1) eqn:Hma.
    + intros [= <- <-]. exists (a :: l1), l2. split_and!; [done| |done].
      by constructor.
    + intros [= <- <-]. exists [], (l1 ++ m :: l2). split_and!; [done|constructor|].
      apply Forall_app. split; [|constructor].
      * eapply Forall_impl; [exact H1|]. simpl. intros y Hy.
        apply (not_ltb_trans _ m.1); [done|by apply ltb_asym].
      * done.
      * eapply Forall_impl; [exact H2|]. simpl. intros y Hy.
        by apply (not_ltb_trans _ m.1).
Qed.

Lemma first_min_head (l : list (K * A)) x :
  first_min ltb l x → ∃ s, isort ltb l = x :: s.
Proof.
  intros (l1 & l2 & -> & H1 & H2).
  induction H1 as [|a l1 Ha _ IH]; simpl.
  - destruct (isort ltb l2) as [|h r] eqn:Hs; simpl; [by eexists|].
    assert (h ∈ l2) as Hh.
    { rewrite <-(isort_perm l2), Hs. by left. }
    rewrite Forall_forall in H2. rewrite (H2 h Hh). by eexists.
  - destruct IH as [s ->]. simpl. rewrite Ha. by eexists.
Qed.

Lemma first_min_unique (l : list (K * A)) x y :
  first_min ltb l x → first_min ltb l y → x = y.
Proof.
  intros [s Hx]%first_min_head [s' Hy]%first_min_head. congruence.
Qed.

End first_of_stable_sort.

(** ** The fallible list functions, when they return *)

Lemma bind_Ok {A B} (r : result A) (f : A → result B) b :
  r ≫= f = Ok b ↔ ∃ a, r = Ok a ∧ f a = Ok b.
Proof.
  destruct r as [a|e]; simpl; split; try done.
  - by exists a.
  - by intros (? & [= <-] & ?).
  - by intros (? & ? & ?).
Qed.

Section fallible_lists.
Context {A B : Type}.

Lemma filter_m_Ok (p : A → result bool) l l' :
  filter_m p l = Ok l' →
  Forall (λ x, ∃ b, p x = Ok b) l ∧ l' = filter (λ x, p x = Ok true) l.
Proof.
  revert l'. induction l as [|x l IH]; intros l'; simpl.
  - by intros [= <-].
  - intros H. apply bind_Ok in H as (b & Hb & H).
    apply bind_Ok in H as (r & Hr & [= <-]).
    destruct (IH _ Hr) as [Hall ->]. split; [constructor; eauto|].
    rewrite filter_cons. destruct b; case_decide; congruence.
Qed.

Lemma filter_m_total (p : A → result bool) l :
  Forall (λ x, ∃ b, p x = Ok b) l →
  filter_m p l = Ok (filter (λ x, p x = Ok true) l).
Proof.
  induction 1 as [|x l [b Hb] _ IH]; simpl; [done|].
  rewrite Hb, IH; simpl. rewrite filter_cons, Hb.
  destruct b; case_decide; congruence.
Qed.

Lemma map_m_Ok (f : A → result B) l l' :
  map_m f l = Ok l' ↔ Forall2 (λ x y, f x = Ok y) l l'.
Proof.
  revert l'. induction l as [|x l IH]; intros l'; simpl.
  - split; [intros [= <-]; constructor | by inversion 1].
  - split.
    + intros H. apply bind_Ok in H as (y & Hy & H).
      apply bind_Ok in H as (r & Hr & [= <-]).
      constructor; [done|by apply IH].
    + inversion 1 as [|? y ? r Hy Hr]; subst.
      apply IH in Hr. by rewrite Hy, Hr.
Qed.

Lemma filter_split (P : A → Prop) `{!∀ x, Decision (P x)} l e1 x e2 :
  filter P l = e1 ++ x :: e2 →
  ∃ l1 l2, l = l1 ++ x :: l2 ∧ filter P l1 = e1 ∧ filter P l2 = e2 ∧ P x.
Proof.
  revert e1. induction l as [|a l IH]; intros e1; [by destruct e1|].
  rewrite filter_cons. case_decide as Ha.
  - destruct e1 as [|b e1]; simpl.
    + intros [= -> He]. exists [], l. by rewrite filter_nil.
    + intros [= <- He]. destruct (IH _ He) as (l1 & l2 & -> & <- & <- & ?).
      exists (a :: l1), l2. by rewrite filter_cons_True.
  - intros He. destruct (IH _ He) as (l1 & l2 & -> & <- & <- & ?).
    exists (a :: l1), l2. by rewrite filter_cons_False.
Qed.

Lemma filter_none (P : A → Prop) `{!∀ x, Decision (P x)} l :
  Forall (λ x, ¬ P x) l → filter P l = [].
Proof.
  induction 1 as [|x l Hx _ IH]; [done|]. by rewrite filter_cons_False.
Qed.

End fallible_lists.

Section sort_m_spec.
Context {K A : Type}.
Variable lt : K → K → result bool.
Variable ltb : K → K → bool.
Hypothesis lt_ltb : ∀ a b r, lt a b = Ok r → r = ltb a b.

Lemma insert_m_Ok (x : K * A) l s :
  insert_m lt x l = Ok s → s = insert ltb x l.
Proof.
  revert s. induction l as [|y l IH]; intros s; simpl.
  - by intros [= <-].
  - intros H. apply bind_Ok in H as (b & Hb & H).
    rewrite <-(lt_ltb _ _ _ Hb). destruct b.
    + apply bind_Ok in H as (r & Hr & [= <-]). by rewrite (IH _ Hr).
    + by injection H as <-.
Qed.

Lemma sort_m_Ok (l s : list (K * A)) :
  sort_m lt l = Ok s → s = isort ltb l.
Proof.
  revert s. induction l as [|x l IH]; intros s; simpl.
  - by intros [= <-].
  - intros H. apply bind_Ok in H as (r & Hr & H).
    rewrite <-(IH _ Hr). by apply insert_m_Ok.
Qed.

Lemma insert_m_total (x : K * A) l :
  (∀ y, y ∈ l → ∃ r, lt y.1 x.1 = Ok r) →
  insert_m lt x l = Ok (insert ltb x l).
Proof.
  induction l as [|y l IH]; intros Hc; simpl; [done|].
  destruct (Hc y) as [r Hr]; [by left|].
  rewrite Hr; simpl. rewrite <-(lt_ltb _ _ _ Hr). destruct r; [|done].
  rewrite IH; [done|]. intros z Hz. apply Hc. by right.
Qed.

Lemma sort_m_total (l : list (K * A)) :
  comparable lt l → sort_m lt l = Ok (isort ltb l).
Proof.
  induction l as [|x l IH]; intros Hc; simpl; [done|].
  rewrite IH; simpl.
  - apply insert_m_total. intros y Hy. apply Hc; [|by left].
    right. by rewrite <-(isort_perm ltb l).
  - intros y z Hy Hz. apply Hc; by right.
Qed.

End sort_m_spec.

(** ** What [next_order] reads: eligibility and the ranking *)

Lemma wf_order_spec str_ts o :
  wf_order str_ts o = true ↔
  ∃ i q c t, o !! "item" = Some i ∧ o !! "quantity" = Some (VInt q) ∧
             o !! "category" = Some c ∧ o !! "timestamp" = Some t ∧
             is_str t = str_ts.
Proof.
  unfold wf_order, asks_quantity. split.
  - destruct (o !! "item") as [i|]; [|done].
    destruct (o !! "quantity") as [[q|]|]; try done.
    destruct (o !! "category") as [c|]; [|done].
    destruct (o !! "timestamp") as [t|]; [|done].
    intros H%bool_decide_eq_true. by exists i, q, c, t.
  - intros (i & q & c & t & -> & -> & -> & -> & H).
    by apply bool_decide_eq_true.
Qed.

Lemma asks_quantity_spec o :
  asks_quantity o = true ↔
  ∃ i q, o !! "item" = Some i ∧ o !! "quantity" = Some (VInt q).
Proof.
  unfold asks_quantity. split.
  - destruct (o !! "item") as [i|]; [|done].
    destruct (o !! "quantity") as [[q|]|]; try done. by exists i, q.
  - by intros (i & q & -> & ->).
Qed.

Lemma well_formed_spec str_ts self :
  well_formed str_ts self = true ↔
  ∀ o, o ∈ orders self → wf_order str_ts o = true.
Proof.
  unfold well_formed. rewrite forallb_forall.
  by setoid_rewrite list_elem_of_In.
Qed.

Lemma is_available_spec inv o b :
  is_available inv o = Ok b ↔
  ∃ i q, o !! "item" = Some i ∧ o !! "quantity" = Some (VInt q) ∧
         b = (q <=? dict_get inv i 0).
Proof.
  unfold is_available, getitem. split.
  - destruct (o !! "item") as [i|]; [|done].
    destruct (o !! "quantity") as [[q|]|]; try done.
    simpl. intros [= <-]. by exists i, q.
  - by intros (i & q & -> & -> & ->).
Qed.

Lemma sort_key_spec o k :
  sort_key o = Ok k ↔
  ∃ c t, o !! "category" = Some c ∧ o !! "timestamp" = Some t ∧
         k = (priority c, t).
Proof.
  unfold sort_key, getitem. split.
  - destruct (o !! "category") as [c|]; [|done].
    destruct (o !! "timestamp") as [t|]; [|done].
    simpl. intros [= <-]. by exists c, t.
  - by intros (c & t & -> & -> & ->).
Qed.

Lemma keyed_spec (o : order) (y : Z * value * order) :
  (sort_key o ≫= λ k, Ok (k, o)) = Ok y ↔ sort_key o = Ok y.1 ∧ y.2 = o.
Proof.
  rewrite bind_Ok. split.
  - by intros (k & Hk & [= <-]).
  - intros [Hk <-]. exists y.1. by destruct y.
Qed.

Lemma key_lt_same_kind a b :
  is_str a.2 = is_str b.2 → ∃ r, key_lt a b = Ok r.
Proof.
  destruct a as [p [x|x]], b as [p' [y|y]]; unfold key_lt; simpl; try done;
    intros _; repeat case_decide; by eexists.
Qed.

Lemma selected_picks self o : selected self = Ok o → picks self o.
Proof.
  unfold selected, sorted_order, available_order, sorted. intros H.
  apply bind_Ok in H as (ranked & H & Hhd).
  apply bind_Ok in H as (avail & Havail & H).
  apply bind_Ok in H as (keyed & Hkeyed & H).
  apply bind_Ok in H as (s & Hs & [= <-]).
  destruct s as [|[k o'] s]; simpl in Hhd; [done|]. injection Hhd as ->.
  apply (sort_m_Ok key_lt key_ltb key_lt_ltb) in Hs.
  symmetry in Hs.
  apply (isort_head key_ltb key_ltb_irrefl key_ltb_trans key_ltb_total) in Hs
    as (d1 & d2 & -> & Hd1 & Hd2).
  apply map_m_Ok, Forall2_app_inv_r in Hkeyed as (a1 & a2' & Ha1 & Ha2 & ->).
  apply Forall2_cons_inv_r in Ha2 as (o' & a2 & [Hk Ho]%keyed_spec & Ha2 & ->).
  simpl in Hk, Ho. subst o'.
  apply filter_m_Ok in Havail as [_ Havail]. symmetry in Havail.
  apply filter_split in Havail as (l1 & l2 & Hl & <- & <- & Ho).
  exists l1, l2, k. split_and!; try done.
  - apply Forall_forall. intros o' Hin He.
    assert (o' ∈ filter (λ x, is_available (inventory self) x = Ok true) l1)
      as Hf by (by apply list_elem_of_filter).
    apply list_elem_of_lookup in Hf as [n Hn].
    destruct (Forall2_lookup_l _ _ _ _ _ Ha1 Hn) as (y & Hy & [Hky _]%keyed_spec).
    exists y.1. split; [done|].
    rewrite Forall_forall in Hd1. apply (Hd1 y).
    by apply list_elem_of_lookup_2 in Hy.
  - apply Forall_forall. intros o' Hin He.
    assert (o' ∈ filter (λ x, is_available (inventory self) x = Ok true) l2)
      as Hf by (by apply list_elem_of_filter).
    apply list_elem_of_lookup in Hf as [n Hn].
    destruct (Forall2_lookup_l _ _ _ _ _ Ha2 Hn) as (y & Hy & [Hky _]%keyed_spec).
    exists y.1. split; [done|].
    rewrite Forall_forall in Hd2. apply (Hd2 y).
    by apply list_elem_of_lookup_2 in Hy.
Qed.

Lemma map_m_total {A B} (f : A → result B) l :
  Forall (λ x, ∃ y, f x = Ok y) l → ∃ l', map_m f l = Ok l'.
Proof.
  induction 1 as [|x l [y Hy] _ [l' IH]]; simpl; [by eexists|].
  rewrite Hy, IH. by eexists.
Qed.

Lemma available_order_total str_ts self :
  well_formed str_ts self = true →
  available_order self = Ok (filter (eligible self) (orders self)).
Proof.
  rewrite well_formed_spec. intros Hwf. apply filter_m_total.
  apply Forall_forall. intros o Ho.
  apply Hwf, wf_order_spec in Ho as (i & q & c & t & Hi & Hq & _).
  eexists. apply is_available_spec. by exists i, q.
Qed.

Lemma sorted_order_total str_ts self :
  well_formed str_ts self = true →
  ∃ keyed,
    Forall2 (λ o y, sort_key o = Ok y.1 ∧ y.2 = o)
      (filter (eligible self) (orders self)) keyed ∧
    sorted_order self = Ok ((isort key_ltb keyed).*2).
Proof.
  intros Hwf.
  unfold sorted_order. rewrite (available_order_total str_ts) by done.
  simpl. unfold sorted.
  rewrite well_formed_spec in Hwf.
  set (avail := filter (eligible self) (orders self)).
  assert (Forall (λ x, ∃ y, (sort_key x ≫= λ k, Ok (k, x)) = Ok y) avail) as Hkeys.
  { apply Forall_forall. intros o' [_ Hin]%list_elem_of_filter.
    apply Hwf, wf_order_spec in Hin as (i & q & c & t & _ & _ & Hc & Ht & _).
    exists ((priority c, t), o'). apply keyed_spec. split; [|done].
    apply sort_key_spec. by exists c, t. }
  destruct (map_m_total _ _ Hkeys) as [keyed Hkeyed]. rewrite Hkeyed. simpl.
  apply map_m_Ok in Hkeyed.
  assert (Forall2 (λ o y, sort_key o = Ok y.1 ∧ y.2 = o) avail keyed) as Hk2.
  { eapply Forall2_impl; [exact Hkeyed|]. intros o y. by rewrite keyed_spec. }
  exists keyed. split; [done|].
  assert (comparable key_lt keyed) as Hcmp.
  { assert (∀ y, y ∈ keyed → is_str y.1.2 = str_ts) as Hkind.
    { intros y [n Hn]%list_elem_of_lookup.
      destruct (Forall2_lookup_r _ _ _ _ _ Hk2 Hn) as (o' & Ho' & Hky & _).
      apply list_elem_of_lookup_2, list_elem_of_filter in Ho' as [_ Hin].
      apply Hwf, wf_order_spec in Hin as (i & q & c & t & _ & _ & Hc & Ht & Hs).
      apply sort_key_spec in Hky as (c' & t' & Hc' & Ht' & ->).
      simpl. congruence. }
    intros x y Hx Hy. apply key_lt_same_kind.
    by rewrite (Hkind x), (Hkind y). }
  by rewrite (sort_m_total key_lt key_ltb key_lt_ltb).
Qed.

Lemma picks_selected str_ts self o :
  well_formed str_ts self = true → picks self o → selected self = Ok o.
Proof.
  intros Hwf (l1 & l2 & k & Hl & Ho & Hk & H1 & H2).
  destruct (sorted_order_total _ _ Hwf) as (keyed & Hkeyed & Hsorted).
  unfold selected. rewrite Hsorted. simpl.
  assert (first_min key_ltb keyed (k, o)) as Hmin.
  { rewrite Hl, filter_app, filter_cons_True in Hkeyed by done.
    apply Forall2_app_inv_l in Hkeyed as (d1 & d2' & Hd1 & Hd2 & ->).
    apply Forall2_cons_inv_l in Hd2 as (y & d2 & [Hy Hyo] & Hd2 & ->).
    assert (y = (k, o)) as -> by (destruct y; simpl in *; congruence).
    exists d1, d2. split_and!; [done| |].
    - apply Forall_forall. intros y [n Hn]%list_elem_of_lookup.
      destruct (Forall2_lookup_r _ _ _ _ _ Hd1 Hn) as (o' & Ho' & Hky & _).
      apply list_elem_of_lookup_2, list_elem_of_filter in Ho' as [He Hin].
      rewrite Forall_forall in H1.
      destruct (H1 o' Hin He) as (k' & Hk' & Hlt). simpl. congruence.
    - apply Forall_forall. intros y [n Hn]%list_elem_of_lookup.
      destruct (Forall2_lookup_r _ _ _ _ _ Hd2 Hn) as (o' & Ho' & Hky & _).
      apply list_elem_of_lookup_2, list_elem_of_filter in Ho' as [He Hin].
      rewrite Forall_forall in H2.
      destruct (H2 o' Hin He) as (k' & Hk' & Hlt). simpl. congruence. }
  apply first_min_head in Hmin as [s ->]. done.
Qed.

(** Some eligible order in a well-formed backlog: one is picked. *)
Lemma selected_total str_ts self o :
  well_formed str_ts self = true → o ∈ orders self → eligible self o →
  ∃ o', selected self = Ok o'.
Proof.
  intros Hwf Hin He.
  destruct (sorted_order_total _ _ Hwf) as (keyed & Hkeyed & Hsorted).
  unfold selected. rewrite Hsorted. simpl.
  destruct (isort key_ltb keyed) as [|[k' o'] s] eqn:Hs; simpl; [|by eexists].
  exfalso.
  pose proof (isort_perm key_ltb keyed) as Hp. rewrite Hs in Hp.
  apply Permutation_nil_l in Hp as <-.
  apply Forall2_nil_inv_r in Hkeyed.
  assert (o ∈ filter (eligible self) (orders self)) as Ho
    by (by apply list_elem_of_filter).
  rewrite Hkeyed in Ho. by apply not_elem_of_nil in Ho.
Qed.

(** ** [next_order] in terms of what it selects *)

Lemma next_order_Ok self o self' :
  next_order self = (Ok o, self') ↔
  selected self = Ok o ∧
  ∃ i q n, o !! "item" = Some i ∧ o !! "quantity" = Some (VInt q) ∧
           inventory self !! i = Some n ∧ self' = debited self i (n - q).
Proof.
  unfold next_order, mbind, M_bind, mret, M_ret, get_self, lift,
    inventory_isub, getitem, debited.
  destruct (selected self) as [o'|e]; [|by split; [|intros [? _]]].
  split.
  - destruct (o' !! "item") as [i|] eqn:Hi; [|done].
    destruct (inventory self !! i) as [n|] eqn:Hn; [|done].
    destruct (o' !! "quantity") as [[q|]|] eqn:Hq; simpl; try done.
    intros [= <- <-]. split; [done|]. by exists i, q, n.
  - intros [[= ->] (i & q & n & -> & Hq & Hn & ->)].
    by rewrite Hn, Hq.
Qed.

Lemma next_order_Raise self e self' :
  next_order self = (Raise e, self') → self' = self.
Proof.
  unfold next_order, mbind, M_bind, mret, M_ret, get_self, lift,
    inventory_isub, getitem.
  destruct (selected self) as [o|]; [|congruence].
  destruct (o !! "item") as [i|]; [|congruence].
  destruct (inventory self !! i) as [n|]; [|congruence].
  destruct (o !! "quantity") as [[q|]|]; simpl; congruence.
Qed.

Lemma next_order_selected_Raise self e :
  selected self = Raise e → next_order self = (Raise e, self).
Proof.
  unfold next_order, mbind, M_bind, get_self, lift. by intros ->.
Qed.

Lemma picks_eligible self o :
  picks self o →
  o ∈ orders self ∧
  ∃ i q, o !! "item" = Some i ∧ o !! "quantity" = Some (VInt q) ∧
         q ≤ dict_get (inventory self) i 0.
Proof.
  intros (l1 & l2 & k & Hl & Ho & _). split.
  - rewrite Hl. set_solver.
  - apply is_available_spec in Ho as (i & q & Hi & Hq & Hle).
    exists i, q. split_and!; [done..|]. symmetry in Hle. by apply Z.leb_le.
Qed.

(** ** C1: nothing eligible *)

(** C1 (what the code does instead): when the comprehension keeps no order
    (the backlog is empty, or every backlog order asks for more than the
    stock of its item), [next_order] raises [IndexError] at
    [sorted_order[0]]; it does not return a "no eligible order" value.  The
    object is left as it was, inventory included. *)
Theorem next_order_no_eligible_raises self :
  Forall (λ o, is_available (inventory self) o = Ok false) (orders self) →
  next_order self = (Raise IndexError, self).
Proof.
  intros Hall. apply next_order_selected_Raise.
  unfold selected, sorted_order, available_order.
  rewrite filter_m_total.
  - rewrite filter_none; [done|].
    eapply Forall_impl; [exact Hall|]. simpl. congruence.
  - eapply Forall_impl; [exact Hall|]. simpl. intros o Ho. by exists false.
Qed.

Lemma next_order_no_eligible_raises_witness :
  next_order routes_picker = (Raise IndexError, routes_picker) ∧
  next_order bread_short = (Raise IndexError, bread_short).
Proof.
  split; apply next_order_no_eligible_raises.
  - constructor.
  - repeat constructor.
Defined.

(** ** C2 and C5: the ranking *)

Lemma priority_non_perishable : priority (VStr "non_perishable") = 1.
Proof. reflexivity. Qed.

Lemma priority_other c : c ≠ VStr "non_perishable" → priority c = 0.
Proof.
  intros Hc. unfold priority, dict_get, CATEGORY_PRIORITY.
  destruct (decide (c = VStr "perishable")) as [->|Hp].
  - by rewrite lookup_insert_eq.
  - by rewrite lookup_insert_ne, lookup_singleton_ne.
Qed.

(** No eligible order has a key below the key of the picked one. *)
Lemma picks_min self o o' k k' :
  picks self o → o' ∈ orders self → eligible self o' →
  sort_key o = Ok k → sort_key o' = Ok k' → key_ltb k' k = false.
Proof.
  intros (l1 & l2 & k0 & Hl & Ho & Hk0 & H1 & H2) Hin He Hk Hk'.
  assert (k0 = k) as -> by congruence.
  rewrite Hl, elem_of_app, elem_of_cons in Hin.
  rewrite Forall_forall in H1, H2.
  destruct Hin as [Hin|[->|Hin]].
  - destruct (H1 _ Hin He) as (k1 & Hk1 & Hlt).
    assert (k1 = k') as -> by congruence.
    by apply (ltb_asym key_ltb key_ltb_irrefl key_ltb_trans).
  - assert (k' = k) as -> by congruence. apply key_ltb_irrefl.
  - destruct (H2 _ Hin He) as (k1 & Hk1 & Hlt). congruence.
Qed.


(** C2 (amended): in a state whose backlog has the shape of the data model,
    with some eligible order, and in which the first-ranked order's item has
    an inventory entry, [next_order] returns an eligible backlog order whose
    key (category priority, timestamp) is minimal among the eligible ones:
    no eligible order has a lower priority, and none of the same priority
    has an earlier timestamp.  The priority is 0 for 'perishable', 1 for
    'non_perishable' and 0 for every other category. *)
Theorem next_order_returns_minimal str_ts self :
  well_formed str_ts self = true →
  (∃ o, o ∈ orders self ∧ eligible self o) →
  (∀ o i, selected self = Ok o → o !! "item" = Some i →
          is_Some (inventory self !! i)) →
  (priority (VStr "perishable") = 0 ∧ priority (VStr "non_perishable") = 1 ∧
   ∀ c, c ≠ VStr "perishable" → c ≠ VStr "non_perishable" → priority c = 0) ∧
  ∃ o self' c t,
    next_order self = (Ok o, self') ∧
    o ∈ orders self ∧ eligible self o ∧
    o !! "category" = Some c ∧ o !! "timestamp" = Some t ∧
    ∀ o' c' t',
      o' ∈ orders self → eligible self o' →
      o' !! "category" = Some c' → o' !! "timestamp" = Some t' →
      priority c ≤ priority c' ∧
      (priority c = priority c' → value_lt t' t = Ok false).
Proof.
  intros Hwf (o0 & Hin0 & He0) Hentry. split.
  { split_and!; [done..|]. intros c _ Hc. by apply priority_other. }
  destruct (selected_total _ _ _ Hwf Hin0 He0) as [o Hsel].
  pose proof (selected_picks _ _ Hsel) as Hpicks.
  destruct (picks_eligible _ _ Hpicks) as (Hin & i & q & Hi & Hq & Hle).
  destruct (Hentry _ _ Hsel Hi) as [n Hn].
  rewrite well_formed_spec in Hwf.
  destruct (proj1 (wf_order_spec _ _) (Hwf _ Hin))
    as (_ & _ & c & t & _ & _ & Hc & Ht & Hkind).
  exists o, (debited self i (n - q)), c, t. split_and!; try done.
  - apply next_order_Ok. split; [done|]. by exists i, q, n.
  - by destruct Hpicks as (_ & _ & _ & _ & ? & _).
  - intros o' c' t' Hin' He' Hc' Ht'.
    destruct (proj1 (wf_order_spec _ _) (Hwf _ Hin'))
      as (_ & _ & c1 & t1 & _ & _ & Hc1 & Ht1 & Hkind').
    assert (t1 = t') as -> by congruence.
    assert (key_ltb (priority c', t') (priority c, t) = false) as Hmin.
    { apply (picks_min self o o'); try done; apply sort_key_spec; eauto. }
    unfold key_ltb in Hmin. simpl in Hmin.
    apply orb_false_iff in Hmin as [Hp Ht'tb]. apply Z.ltb_ge in Hp.
    split; [done|]. intros Heq. rewrite Heq, Z.eqb_refl in Ht'tb.
    simpl in Ht'tb. rewrite <-Ht'tb.
    destruct t as [x|x], t' as [y|y]; simpl in *; congruence.
Qed.

Lemma next_order_returns_minimal_witness :
  ∃ o self' c t,
    next_order two_apples = (Ok o, self') ∧
    o ∈ orders two_apples ∧ eligible two_apples o ∧
    o !! "category" = Some c ∧ o !! "timestamp" = Some t ∧
    ∀ o' c' t',
      o' ∈ orders two_apples → eligible two_apples o' →
      o' !! "category" = Some c' → o' !! "timestamp" = Some t' →
      priority c ≤ priority c' ∧
      (priority c = priority c' → value_lt t' t = Ok false).
Proof.
  apply (next_order_returns_minimal true two_apples).
  - reflexivity.
  - eexists. split; [by left|reflexivity].
  - intros o i [= <-] [= <-]. by eexists.
Defined.

(** C2 (as stated) fails: here the eligible subset is not empty, and
    [next_order] raises [KeyError] instead of returning an order. *)
Lemma next_order_raises_despite_eligible :
  (∃ o, o ∈ orders kiwi_first ∧ eligible kiwi_first o) ∧
  next_order kiwi_first = (Raise (KeyError (VStr "kiwi")), kiwi_first).
Proof.
  split; [|by vm_compute].
  eexists. split; [by left|reflexivity].
Qed.



(** ** C3, C7, C8: the debit *)

(** C3: a call that returns [o] leaves the backlog as it was ([o] still in
    it), takes exactly [o]'s quantity off the inventory entry of [o]'s item,
    and leaves every other entry alone. *)
Theorem next_order_debits_exactly self o self' :
  next_order self = (Ok o, self') →
  ∃ i q n,
    o !! "item" = Some i ∧ o !! "quantity" = Some (VInt q) ∧
    inventory self !! i = Some n ∧
    inventory self' !! i = Some (n - q) ∧
    (∀ j, j ≠ i → inventory self' !! j = inventory self !! j) ∧
    orders self' = orders self ∧ o ∈ orders self'.
Proof.
  intros [Hsel (i & q & n & Hi & Hq & Hn & ->)]%next_order_Ok.
  exists i, q, n. simpl. split_and!; try done.
  - apply lookup_insert_eq.
  - intros j Hj. by apply lookup_insert_ne.
  - by apply selected_picks, picks_eligible in Hsel as [? _].
Qed.

Lemma next_order_debits_exactly_witness :
  ∃ i q n,
    mk_order "apple" 3 "perishable" "2024-01-02" !! "item" = Some i ∧
    mk_order "apple" 3 "perishable" "2024-01-02" !! "quantity" = Some (VInt q) ∧
    inventory two_apples !! i = Some n ∧
    inventory (debited two_apples (VStr "apple") 2) !! i = Some (n - q) ∧
    (∀ j, j ≠ i → inventory (debited two_apples (VStr "apple") 2) !! j
                   = inventory two_apples !! j) ∧
    orders (debited two_apples (VStr "apple") 2) = orders two_apples ∧
    mk_order "apple" 3 "perishable" "2024-01-02"
      ∈ orders (debited two_apples (VStr "apple") 2).
Proof.
  apply (next_order_debits_exactly two_apples). by vm_compute.
Defined.

(** C7 (amended): when the selected order's quantity is positive, the
    inventory has an entry for its item, holding at least that quantity, and
    the call goes through, returning the order and writing the difference. *)
Theorem selected_positive_has_entry self o q :
  selected self = Ok o → o !! "quantity" = Some (VInt q) → 0 < q →
  ∃ i n,
    o !! "item" = Some i ∧ inventory self !! i = Some n ∧ q ≤ n ∧
    next_order self = (Ok o, debited self i (n - q)).
Proof.
  intros Hsel Hq Hpos.
  destruct (picks_eligible _ _ (selected_picks _ _ Hsel))
    as (_ & i & q' & Hi & Hq' & Hle).
  assert (q' = q) as -> by congruence.
  unfold dict_get in Hle.
  destruct (inventory self !! i) as [n|] eqn:Hn; simpl in Hle; [|lia].
  exists i, n. split_and!; try done.
  apply next_order_Ok. split; [done|]. by exists i, q, n.
Qed.

Lemma selected_positive_has_entry_witness :
  ∃ i n,
    mk_order "apple" 3 "perishable" "2024-01-02" !! "item" = Some i ∧
    inventory two_apples !! i = Some n ∧ 3 ≤ n ∧
    next_order two_apples
    = (Ok (mk_order "apple" 3 "perishable" "2024-01-02"),
       debited two_apples i (n - 3)).
Proof.
  apply (selected_positive_has_entry two_apples); [by vm_compute|done|lia].
Defined.

(** C7 (as stated) fails: an order for nothing of an item the inventory does
    not list passes the filter and is selected; the debit then raises
    [KeyError]. *)
Lemma selected_without_entry :
  selected pear_for_nothing = Ok (mk_order "pear" 0 "perishable" "2024-01-01") ∧
  inventory pear_for_nothing !! VStr "pear" = None ∧
  next_order pear_for_nothing
  = (Raise (KeyError (VStr "pear")), pear_for_nothing).
Proof. split_and!; by vm_compute. Qed.

(** C8: a call of [next_order], whatever its outcome, leaves every
    inventory quantity non-negative if they all were. *)
Theorem next_order_keeps_nonneg self :
  map_Forall (λ _ n, 0 ≤ n) (inventory self) →
  map_Forall (λ _ n, 0 ≤ n) (inventory (next_order self).2).
Proof.
  intros Hnn. destruct (next_order self) as [[o|e] self'] eqn:Hcall; simpl.
  - apply next_order_Ok in Hcall as [Hsel (i & q & n & Hi & Hq & Hn & ->)].
    simpl. apply map_Forall_insert_2; [|done].
    destruct (picks_eligible _ _ (selected_picks _ _ Hsel))
      as (_ & i' & q' & Hi' & Hq' & Hle).
    assert (i' = i) as -> by congruence.
    assert (q' = q) as -> by congruence.
    unfold dict_get in Hle. rewrite Hn in Hle. simpl in Hle. lia.
  - by apply next_order_Raise in Hcall as ->.
Qed.

Lemma next_order_keeps_nonneg_witness :
  map_Forall (λ _ n, 0 ≤ n) (inventory (next_order two_apples).2).
Proof.
  apply next_order_keeps_nonneg.
  apply map_Forall_singleton. lia.
Defined.

(** ** C4: the eligible subset *)

Lemma eligible_spec_eligible self o :
  eligible self o ↔ spec_eligible (inventory self) o = true.
Proof.
  unfold eligible, spec_eligible. rewrite is_available_spec. split.
  - intros (i & q & -> & -> & Hle). unfold dict_get in Hle.
    by destruct (inventory self !! i).
  - destruct (o !! "item") as [i|]; [|done].
    destruct (o !! "quantity") as [[q|]|]; try done.
    intros H. exists i, q. split_and!; [done..|].
    unfold dict_get. by destruct (inventory self !! i).
Qed.

(** C4: on a backlog whose orders carry an item and an integer quantity,
    the comprehension of [next_order] raises nothing and keeps, in backlog
    order, exactly the orders whose quantity is covered by the stock of
    their item, an item the inventory does not list having stock 0 (so that
    such an order is kept exactly when its quantity is 0 or less). *)
Theorem available_order_exact self :
  forallb asks_quantity (orders self) = true →
  available_order self
  = Ok (filter (λ o, spec_eligible (inventory self) o = true) (orders self)) ∧
  ∀ o i q, o !! "item" = Some i → o !! "quantity" = Some (VInt q) →
           inventory self !! i = None →
           (spec_eligible (inventory self) o = true ↔ q ≤ 0).
Proof.
  intros Hall. split.
  - unfold available_order. rewrite filter_m_total.
    + f_equal. apply list_filter_iff. intros o. apply eligible_spec_eligible.
    + apply Forall_forall. intros o Ho%list_elem_of_In.
      rewrite forallb_forall in Hall.
      apply Hall, asks_quantity_spec in Ho as (i & q & Hi & Hq).
      eexists. apply is_available_spec. by exists i, q.
  - intros o i q Hi Hq Hn. unfold spec_eligible. rewrite Hi, Hq, Hn.
    apply Z.leb_le.
Qed.

Lemma available_order_exact_witness :
  available_order kiwi_first
  = Ok (filter (λ o, spec_eligible (inventory kiwi_first) o = true)
          (orders kiwi_first)) ∧
  ∀ o i q, o !! "item" = Some i → o !! "quantity" = Some (VInt q) →
           inventory kiwi_first !! i = None →
           (spec_eligible (inventory kiwi_first) o = true ↔ q ≤ 0).
Proof. apply (available_order_exact kiwi_first). reflexivity. Defined.

(** ** C6 and C9: submit_order *)

(** C6: a candidate that lacks one of the four required keys is refused
    with a [ValueError] whose message lists, comma-joined and in the order
    item, quantity, category, timestamp, exactly the keys it lacks; the
    object, backlog and inventory, is left as it was. *)
Theorem submit_order_missing self (candidate : order) :
  (∃ f, f ∈ ["item"; "quantity"; "category"; "timestamp"] ∧
        candidate !! f = None) →
  ∃ missing,
    submit_order candidate self
    = (Raise (ValueError ("Missing field:" +:+ String.concat "," missing)),
       self) ∧
    missing `sublist_of` ["item"; "quantity"; "category"; "timestamp"] ∧
    ∀ f, f ∈ missing ↔
         f ∈ ["item"; "quantity"; "category"; "timestamp"] ∧
         candidate !! f = None.
Proof.
  intros (f & Hf & Hnone).
  exists (filter (λ f, candidate !! f = None) required_field). split_and!.
  - unfold submit_order.
    destruct (filter _ required_field) as [|f' l] eqn:Hmiss; [|done].
    assert (f ∈ filter (λ f, candidate !! f = None) required_field) as Hin
      by (by apply list_elem_of_filter).
    rewrite Hmiss in Hin. by apply not_elem_of_nil in Hin.
  - apply sublist_filter.
  - intros f'. rewrite list_elem_of_filter. unfold required_field. tauto.
Qed.

Lemma submit_order_missing_witness :
  ∃ missing,
    submit_order {[ "item" := VStr "apple"; "category" := VStr "perishable" ]}
      routes_picker
    = (Raise (ValueError ("Missing field:" +:+ String.concat "," missing)),
       routes_picker) ∧
    missing `sublist_of` ["item"; "quantity"; "category"; "timestamp"] ∧
    ∀ f, f ∈ missing ↔
         f ∈ ["item"; "quantity"; "category"; "timestamp"] ∧
         ({[ "item" := VStr "apple"; "category" := VStr "perishable" ]}
            : order) !! f = None.
Proof.
  apply submit_order_missing. exists "quantity". split; [|reflexivity].
  right. by left.
Defined.

Example submit_order_missing_message :
  submit_order {[ "item" := VStr "apple"; "category" := VStr "perishable" ]}
    routes_picker
  = (Raise (ValueError "Missing field:quantity,timestamp"), routes_picker).
Proof. reflexivity. Qed.

(** C9: a candidate with the four required keys is appended as it is, extra
    keys and all, at the end of the backlog; the call returns [None] and
    changes nothing else: the backlog is one longer, its last element is the
    candidate, the inventory is the same. *)
Theorem submit_order_appends self (candidate : order) :
  is_Some (candidate !! "item") → is_Some (candidate !! "quantity") →
  is_Some (candidate !! "category") → is_Some (candidate !! "timestamp") →
  submit_order candidate self
  = (Ok tt, {| orders := orders self ++ [candidate];
               inventory := inventory self |}) ∧
  length (orders (submit_order candidate self).2) = S (length (orders self)) ∧
  last (orders (submit_order candidate self).2) = Some candidate ∧
  inventory (submit_order candidate self).2 = inventory self.
Proof.
  intros [i Hi] [q Hq] [c Hc] [t Ht].
  assert (submit_order candidate self
          = (Ok tt, {| orders := orders self ++ [candidate];
                       inventory := inventory self |})) as ->.
  { unfold submit_order, required_field.
    rewrite !filter_cons, filter_nil, Hi, Hq, Hc, Ht.
    repeat case_decide; done. }
  simpl. split_and!; [done| |apply last_snoc|done].
  rewrite length_app. simpl. lia.
Qed.

Lemma submit_order_appends_witness :
  let candidate : order :=
    <[ "id" := VStr "ORD001" ]> (mk_order "apple" 2 "Perishable" "2024-01-01")
  in
  submit_order candidate two_apples
  = (Ok tt, {| orders := orders two_apples ++ [candidate];
               inventory := inventory two_apples |}) ∧
  length (orders (submit_order candidate two_apples).2)
  = S (length (orders two_apples)) ∧
  last (orders (submit_order candidate two_apples).2) = Some candidate ∧
  inventory (submit_order candidate two_apples).2 = inventory two_apples.
Proof.
  intros candidate. apply submit_order_appends; by eexists.
Defined.

(** ** C10: the same order again *)

Lemma eligible_debited self i s q o :
  0 ≤ q → inventory self !! i = Some s →
  eligible (debited self i (s - q)) o → eligible self o.
Proof.
  intros Hq Hs. unfold eligible. rewrite !is_available_spec.
  intros (i' & q' & Hi' & Hq' & Hle). exists i', q'. split_and!; [done..|].
  symmetry. symmetry in Hle. apply Z.leb_le. apply Z.leb_le in Hle.
  unfold dict_get, debited in *. simpl in Hle.
  destruct (decide (i = i')) as [<-|Hne].
  - rewrite lookup_insert_eq in Hle. rewrite Hs. simpl in *. lia.
  - by rewrite lookup_insert_ne in Hle.
Qed.

Lemma picks_debited self o i q s :
  picks self o → o !! "item" = Some i → o !! "quantity" = Some (VInt q) →
  0 ≤ q → inventory self !! i = Some s → q ≤ s - q →
  picks (debited self i (s - q)) o.
Proof.
  intros (l1 & l2 & k & Hl & Ho & Hk & H1 & H2) Hi Hq Hpos Hs Hle.
  exists l1, l2, k. split_and!; [done| |done| |].
  - apply is_available_spec. exists i, q. split_and!; [done..|].
    symmetry. apply Z.leb_le. unfold dict_get, debited. simpl.
    by rewrite lookup_insert_eq.
  - eapply Forall_impl; [exact H1|]. simpl. intros o' Ho' He.
    apply Ho'. by apply (eligible_debited self i s q).
  - eapply Forall_impl; [exact H2|]. simpl. intros o' Ho' He.
    apply Ho'. by apply (eligible_debited self i s q).
Qed.

Lemma debited_debited self i n m :
  debited (debited self i n) i m = debited self i m.
Proof. unfold debited. simpl. by rewrite insert_insert_eq. Qed.

Lemma next_orders_picked str_ts o i q (n : nat) :
  o !! "item" = Some i → o !! "quantity" = Some (VInt q) → 0 ≤ q →
  ∀ self s,
    well_formed str_ts self = true → picks self o →
    inventory self !! i = Some s → Z.of_nat (S n) * q ≤ s →
    next_orders (S n) self
    = (replicate (S n) (Ok o), debited self i (s - Z.of_nat (S n) * q)).
Proof.
  intros Hi Hq Hpos. induction n as [|n IH]; intros self s Hwf Hpicks Hs Hle.
  - assert (next_order self = (Ok o, debited self i (s - q))) as Hcall.
    { apply next_order_Ok. split; [by apply (picks_selected str_ts)|].
      by exists i, q, s. }
    simpl next_orders. rewrite Hcall. simpl. do 2 f_equal. lia.
  - assert (next_order self = (Ok o, debited self i (s - q))) as Hcall.
    { apply next_order_Ok. split; [by apply (picks_selected str_ts)|].
      by exists i, q, s. }
    change (next_orders (S (S n)) self)
      with (let '(r, self') := next_order self in
            let '(rs, self'') := next_orders (S n) self' in (r :: rs, self'')).
    rewrite Hcall.
    rewrite (IH (debited self i (s - q)) (s - q)).
    + rewrite debited_debited. simpl replicate. do 2 f_equal. lia.
    + done.
    + apply picks_debited; try done. nia.
    + unfold debited. simpl. apply lookup_insert_eq.
    + nia.
Qed.

(** C10 (amended): when [next_order] returns [o] on a backlog of the data
    model's shape and [o]'s quantity is not negative, then as long as the
    stock of [o]'s item covers them, consecutive calls return [o] again and
    again: [n] calls in a row all return [o] and leave the stock of its item
    lower by [n] times its quantity, the rest of the state unchanged.  In
    particular a second call returns [o] when the stock left by the first
    still covers its quantity. *)
Theorem next_order_repeats str_ts self o self1 i q s :
  well_formed str_ts self = true →
  next_order self = (Ok o, self1) →
  o !! "item" = Some i → o !! "quantity" = Some (VInt q) → 0 ≤ q →
  inventory self !! i = Some s →
  (q ≤ s - q → next_order self1 = (Ok o, debited self i (s - 2 * q))) ∧
  ∀ n : nat, (0 < n)%nat → Z.of_nat n * q ≤ s →
    next_orders n self
    = (replicate n (Ok o), debited self i (s - Z.of_nat n * q)).
Proof.
  intros Hwf Hcall Hi Hq Hpos Hs.
  apply next_order_Ok in Hcall
    as [Hsel (i' & q' & s' & Hi' & Hq' & Hs' & ->)].
  assert (i' = i) as -> by congruence.
  assert (q' = q) as -> by congruence.
  assert (s' = s) as -> by congruence.
  apply selected_picks in Hsel as Hpicks. split.
  - intros Hle. apply next_order_Ok. split.
    + apply (picks_selected str_ts); [done|]. by apply picks_debited.
    + exists i, q, (s - q). split_and!; [done..| |].
      * unfold debited. simpl. apply lookup_insert_eq.
      * rewrite debited_debited. f_equal. lia.
  - intros [|n] Hn Hle; [lia|].
    by apply (next_orders_picked str_ts).
Qed.

Lemma next_order_repeats_witness :
  (1 ≤ 12 - 1 →
   next_order (debited tie_break (VStr "bread") (12 - 1))
   = (Ok (mk_order "bread" 1 "perishable" "2024-01-05"),
      debited tie_break (VStr "bread") (12 - 2 * 1))) ∧
  ∀ n : nat, (0 < n)%nat → Z.of_nat n * 1 ≤ 12 →
    next_orders n tie_break
    = (replicate n (Ok (mk_order "bread" 1 "perishable" "2024-01-05")),
       debited tie_break (VStr "bread") (12 - Z.of_nat n * 1)).
Proof.
  apply (next_order_repeats true tie_break
           (mk_order "bread" 1 "perishable" "2024-01-05")
           (debited tie_break (VStr "bread") (12 - 1)) (VStr "bread") 1 12).
  - reflexivity.
  - by vm_compute.
  - reflexivity.
  - reflexivity.
  - lia.
  - reflexivity.
Defined.

(** C10 (as stated) fails for a negative quantity: the first call returns
    the order of quantity -1 and raises the stock of apples from 1 to 2,
    which still covers -1; the second call returns the other order, which
    the raised stock has made eligible and which ranks first. *)
Lemma next_order_not_repeated :
  next_order refund_first
  = (Ok (mk_order "apple" (-1) "non_perishable" "2024-01-01"),
     debited refund_first (VStr "apple") 2) ∧
  next_order (debited refund_first (VStr "apple") 2)
  = (Ok (mk_order "apple" 2 "perishable" "2024-01-02"),
     debited refund_first (VStr "apple") 0).
Proof. split; by vm_compute. Qed.

(** * Beyond the claims: failures, runs and the HTTP handlers *)

(** ** When the fallible list functions raise *)

Lemma bind_Raise {A B} (r : result A) (f : A → result B) e :
  r ≫= f = Raise e ↔ r = Raise e ∨ ∃ a, r = Ok a ∧ f a = Raise e.
Proof.
  destruct r as [a|e']; simpl; split.
  - intros H. right. by exists a.
  - intros [H|(a' & H & H')]; [discriminate|]. by injection H as <-.
  - intros [= ->]. by left.
  - intros [H|(a' & H & _)]; [by injection H as ->|discriminate].
Qed.

Lemma filter_m_Raise {A} (p : A → result bool) l e :
  filter_m p l = Raise e → ∃ x, x ∈ l ∧ p x = Raise e.
Proof.
  induction l as [|x l IH]; simpl; [done|].
  intros [H|(b & Hb & H)]%bind_Raise.
  - exists x. split; [by left|done].
  - apply bind_Raise in H as [H|(r & _ & H)]; [|done].
    destruct (IH H) as (y & Hy & Hpy). exists y. split; [by right|done].
Qed.

Lemma map_m_Raise {A B} (f : A → result B) l e :
  map_m f l = Raise e → ∃ x, x ∈ l ∧ f x = Raise e.
Proof.
  induction l as [|x l IH]; simpl; [done|].
  intros [H|(b & Hb & H)]%bind_Raise.
  - exists x. split; [by left|done].
  - apply bind_Raise in H as [H|(r & _ & H)]; [|done].
    destruct (IH H) as (y & Hy & Hpy). exists y. split; [by right|done].
Qed.

Lemma insert_m_Raise {K A} (lt : K → K → result bool) (x : K * A) l e :
  insert_m lt x l = Raise e → ∃ a b, lt a b = Raise e.
Proof.
  induction l as [|y l IH]; simpl; [done|].
  intros [H|(b & Hb & H)]%bind_Raise; [by eauto|].
  destruct b; [|done].
  apply bind_Raise in H as [H|(r & _ & H)]; [by apply IH|done].
Qed.

Lemma sort_m_Raise {K A} (lt : K → K → result bool) (l : list (K * A)) e :
  sort_m lt l = Raise e → ∃ a b, lt a b = Raise e.
Proof.
  induction l as [|x l IH]; simpl; [done|].
  intros [H|(s & _ & H)]%bind_Raise; [by apply IH|].
  by apply insert_m_Raise in H.
Qed.

Lemma key_lt_Raise a b e : key_lt a b = Raise e → e = TypeError.
Proof.
  unfold key_lt. repeat case_decide; try done.
  destruct a.2, b.2; simpl; congruence.
Qed.

Lemma is_available_Raise inv o e :
  is_available inv o = Raise e →
  (e = KeyError (VStr "item") ∧ o !! "item" = None) ∨
  (e = KeyError (VStr "quantity") ∧ o !! "quantity" = None) ∨
  (e = TypeError ∧ ∃ s, o !! "quantity" = Some (VStr s)).
Proof.
  unfold is_available, getitem.
  destruct (o !! "item") as [i|]; simpl; [|intros [= <-]; by left].
  destruct (o !! "quantity") as [[q|s]|]; simpl; [done| |].
  - intros [= <-]. right. right. eauto.
  - intros [= <-]. right. by left.
Qed.

Lemma sort_key_Raise o e :
  sort_key o = Raise e →
  (e = KeyError (VStr "category") ∧ o !! "category" = None) ∨
  (e = KeyError (VStr "timestamp") ∧ o !! "timestamp" = None).
Proof.
  unfold sort_key, getitem.
  destruct (o !! "category") as [c|]; simpl; [|intros [= <-]; by left].
  destruct (o !! "timestamp") as [t|]; simpl; [done|].
  intros [= <-]. by right.
Qed.

Lemma sorted_order_nil self :
  sorted_order self = Ok [] → available_order self = Ok [].
Proof.
  unfold sorted_order, sorted. intros H.
  apply bind_Ok in H as (avail & Havail & H).
  apply bind_Ok in H as (keyed & Hkeyed & H).
  apply bind_Ok in H as (s & Hs & [= Hnil]).
  apply fmap_nil_inv in Hnil as ->.
  apply (sort_m_Ok key_lt key_ltb key_lt_ltb) in Hs.
  pose proof (isort_perm key_ltb keyed) as Hp. rewrite <-Hs in Hp.
  apply Permutation_nil_l in Hp as <-.
  apply map_m_Ok, Forall2_nil_inv_r in Hkeyed as ->. done.
Qed.

Lemma available_order_nil self :
  available_order self = Ok [] → selected self = Raise IndexError.
Proof. unfold selected, sorted_order. by intros ->. Qed.

(** Why the reading part of [next_order] raises. *)
Lemma selected_Raise self e :
  selected self = Raise e →
  (e = IndexError ∧ available_order self = Ok []) ∨
  e = TypeError ∨
  ∃ f o, f ∈ required_field ∧ o ∈ orders self ∧ o !! f = None ∧
         e = KeyError (VStr f).
Proof.
  unfold selected. intros [H|(ranked & Hranked & H)]%bind_Raise.
  - unfold sorted_order in H.
    apply bind_Raise in H as [H|(avail & Havail & H)].
    + apply filter_m_Raise in H as (o & Ho & H).
      apply is_available_Raise in H as [[-> ?]|[[-> ?]|[-> _]]].
      * right. right. exists "item", o. unfold required_field. set_solver.
      * right. right. exists "quantity", o. unfold required_field. set_solver.
      * right. by left.
    + unfold sorted in H.
      apply bind_Raise in H as [H|(keyed & Hkeyed & H)].
      * apply map_m_Raise in H as (o & Ho & H).
        apply bind_Raise in H as [H|(? & _ & ?)]; [|done].
        apply filter_m_Ok in Havail as [_ ->].
        apply list_elem_of_filter in Ho as [_ Ho].
        apply sort_key_Raise in H as [[-> ?]|[-> ?]].
        -- right. right. exists "category", o. unfold required_field. set_solver.
        -- right. right. exists "timestamp", o. unfold required_field. set_solver.
      * apply bind_Raise in H as [H|(s & _ & H)]; [|done].
        apply sort_m_Raise in H as (a & b & H).
        apply key_lt_Raise in H as ->. right. by left.
  - destruct ranked as [|o l]; [|done]. injection H as <-.
    left. split; [done|]. by apply sorted_order_nil.
Qed.

Lemma next_order_Raise_cases self e self' :
  next_order self = (Raise e, self') →
  selected self = Raise e ∨
  ∃ o i, selected self = Ok o ∧ o !! "item" = Some i ∧
         inventory self !! i = None ∧ e = KeyError i.
Proof.
  unfold next_order, mbind, M_bind, mret, M_ret, get_self, lift,
    inventory_isub.
  destruct (selected self) as [o|e'] eqn:Hsel; [|intros [= <- _]; by left].
  apply selected_picks in Hsel as Hpicks.
  destruct (picks_eligible _ _ Hpicks) as (_ & i & q & Hi & Hq & _).
  unfold getitem. rewrite Hi, Hq.
  destruct (inventory self !! i) as [n|] eqn:Hn; simpl; [done|].
  intros [= <- _]. right. by exists o, i.
Qed.

(** ** What [next_order] returns and how it fails *)

(** X1: a returned order is a backlog order whose item has an inventory
    entry holding at least the order's quantity. *)
Theorem next_order_returns_covered self o self' :
  next_order self = (Ok o, self') →
  o ∈ orders self ∧
  ∃ i q n, o !! "item" = Some i ∧ o !! "quantity" = Some (VInt q) ∧
           inventory self !! i = Some n ∧ q ≤ n.
Proof.
  intros [Hsel (i & q & n & Hi & Hq & Hn & _)]%next_order_Ok.
  destruct (picks_eligible _ _ (selected_picks _ _ Hsel))
    as (Hin & i' & q' & Hi' & Hq' & Hle).
  split; [done|]. exists i, q, n. split_and!; [done..|].
  assert (i' = i) as -> by congruence.
  assert (q' = q) as -> by congruence.
  unfold dict_get in Hle. by rewrite Hn in Hle.
Qed.

Lemma next_order_returns_covered_witness :
  mk_order "bread" 1 "perishable" "2024-01-05" ∈ orders tie_break ∧
  ∃ i q n,
    mk_order "bread" 1 "perishable" "2024-01-05" !! "item" = Some i ∧
    mk_order "bread" 1 "perishable" "2024-01-05" !! "quantity"
    = Some (VInt q) ∧
    inventory tie_break !! i = Some n ∧ q ≤ n.
Proof.
  apply (next_order_returns_covered tie_break _
           (debited tie_break (VStr "bread") 11)).
  by vm_compute.
Defined.

(** X2: a call of [next_order] that raises has changed nothing, and what it
    raises is [IndexError], [TypeError] or [KeyError], never the
    [ValueError] of the validation. *)
Theorem next_order_fails_cleanly self e self' :
  next_order self = (Raise e, self') →
  self' = self ∧ (e = IndexError ∨ e = TypeError ∨ ∃ k, e = KeyError k).
Proof.
  intros H. split; [by apply next_order_Raise in H|].
  apply next_order_Raise_cases in H as [H|(o & i & _ & _ & _ & ->)].
  - apply selected_Raise in H as [[-> _]|[->|(f & o & _ & _ & _ & ->)]]; eauto.
  - eauto.
Qed.

Lemma next_order_fails_cleanly_witness :
  pear_for_nothing = pear_for_nothing ∧
  (KeyError (VStr "pear") = IndexError ∨ KeyError (VStr "pear") = TypeError ∨
   ∃ k, KeyError (VStr "pear") = KeyError k).
Proof.
  apply (next_order_fails_cleanly pear_for_nothing). by vm_compute.
Defined.

(** X3: on a backlog whose orders all carry the four required keys (as
    every order that went through [submit_order] does), a [KeyError] of
    [next_order] can only come from the debit: its key is the item of the
    first-ranked order, which asks for 0 or less of an item the inventory
    does not list. *)
Theorem next_order_KeyError_complete self k self' :
  forallb complete (orders self) = true →
  next_order self = (Raise (KeyError k), self') →
  ∃ o q, selected self = Ok o ∧ o ∈ orders self ∧
         o !! "item" = Some k ∧ o !! "quantity" = Some (VInt q) ∧
         q ≤ 0 ∧ inventory self !! k = None.
Proof.
  intros Hc H. rewrite forallb_forall in Hc.
  apply next_order_Raise_cases in H as [H|(o & i & Hsel & Hi & Hn & [= ->])].
  - apply selected_Raise in H as [[? _]|[?|(f & o & Hf & Ho & Hnone & _)]];
      [done..|].
    apply list_elem_of_In, Hc in Ho. unfold complete in Ho.
    rewrite forallb_forall in Ho. apply list_elem_of_In, Ho in Hf.
    apply bool_decide_eq_true in Hf as [? Hf]. congruence.
  - destruct (picks_eligible _ _ (selected_picks _ _ Hsel))
      as (Hin & i' & q & Hi' & Hq & Hle).
    assert (i' = i) as -> by congruence.
    exists o, q. split_and!; try done.
    unfold dict_get in Hle. by rewrite Hn in Hle.
Qed.

Lemma next_order_KeyError_complete_witness :
  ∃ o q, selected pear_for_nothing = Ok o ∧ o ∈ orders pear_for_nothing ∧
         o !! "item" = Some (VStr "pear") ∧ o !! "quantity" = Some (VInt q) ∧
         q ≤ 0 ∧ inventory pear_for_nothing !! VStr "pear" = None.
Proof.
  apply (next_order_KeyError_complete _ _ pear_for_nothing).
  - reflexivity.
  - by vm_compute.
Defined.

(** X4: [next_order] raises [IndexError] exactly when the comprehension
    goes through and keeps nothing. *)
Theorem next_order_IndexError_iff self :
  (next_order self).1 = Raise IndexError ↔ available_order self = Ok [].
Proof.
  split.
  - destruct (next_order self) as [r self'] eqn:H. simpl. intros ->.
    apply next_order_Raise_cases in H as [H|(? & ? & _ & _ & _ & ?)]; [|done].
    apply selected_Raise in H as [[_ ?]|[?|(? & ? & _ & _ & _ & ?)]]; done.
  - intros H. by rewrite (next_order_selected_Raise _ _ (available_order_nil _ H)).
Qed.

(** ** The whole ranking of line 21 *)

Section isort_ranking.
Context {K A : Type} `{!EqDecision K}.
Variable ltb : K → K → bool.
Hypothesis ltb_irrefl : ∀ a, ltb a a = false.
Hypothesis ltb_trans : ∀ a b c, ltb a b = true → ltb b c = true → ltb a c = true.
Hypothesis ltb_total : ∀ a b, ltb a b = false → ltb b a = false → a = b.

Lemma insert_sorted (x : K * A) l :
  StronglySorted (not_after ltb) l → StronglySorted (not_after ltb) (insert ltb x l).
Proof.
  induction 1 as [|y l Hl IH Hy]; simpl; [by repeat constructor|].
  destruct (ltb y.1 x.1) eqn:Hyx.
  - constructor; [done|]. rewrite insert_perm. constructor; [|done].
    by apply (ltb_asym ltb ltb_irrefl ltb_trans).
  - constructor; [by constructor|]. constructor; [done|].
    eapply Forall_impl; [exact Hy|]. unfold not_after. intros z Hz.
    by apply (not_ltb_trans ltb ltb_trans ltb_total _ y.1).
Qed.

Lemma isort_sorted (l : list (K * A)) : StronglySorted (not_after ltb) (isort ltb l).
Proof.
  induction l as [|x l IH]; simpl; [constructor|by apply insert_sorted].
Qed.

Lemma insert_stable k (x : K * A) l :
  filter (λ y, y.1 = k) (insert ltb x l) = filter (λ y, y.1 = k) (x :: l).
Proof.
  induction l as [|y l IH]; simpl; [done|].
  destruct (ltb y.1 x.1) eqn:Hyx; [|done].
  rewrite filter_cons, IH, !filter_cons.
  repeat case_decide; try done. congruence.
Qed.

Lemma isort_stable k (l : list (K * A)) :
  filter (λ y, y.1 = k) (isort ltb l) = filter (λ y, y.1 = k) l.
Proof.
  induction l as [|x l IH]; simpl; [done|].
  by rewrite insert_stable, !filter_cons, IH.
Qed.

End isort_ranking.

Lemma keyed_filter k (d : list (Z * value * order)) :
  Forall (λ y, sort_key y.2 = Ok y.1) d →
  filter (λ o, sort_key o = Ok k) d.*2 = (filter (λ y, y.1 = k) d).*2.
Proof.
  induction 1 as [|y d Hy _ IH]; [done|].
  rewrite fmap_cons, !filter_cons, IH, Hy.
  repeat case_decide; try done; congruence.
Qed.

Lemma keyed_ranked (s : list (Z * value * order)) :
  Forall (λ y, sort_key y.2 = Ok y.1) s →
  StronglySorted (not_after key_ltb) s → StronglySorted ranks_before s.*2.
Proof.
  intros Hkeys Hs. induction Hs as [|y s Hs IH Hy]; [constructor|].
  apply Forall_cons in Hkeys as [Hk Hkeys].
  rewrite fmap_cons. constructor; [by apply IH|].
  apply Forall_fmap, Forall_forall. intros z Hz ka kb Ha Hb Hlt.
  rewrite Forall_forall in Hy, Hkeys.
  simpl in Ha. rewrite Hk in Ha. injection Ha as <-.
  simpl in Hb. rewrite (Hkeys z Hz) in Hb. injection Hb as <-.
  apply key_lt_ltb in Hlt. specialize (Hy z Hz). unfold not_after in Hy.
  congruence.
Qed.

(** X5: when the sort of line 21 goes through, its result is a
    rearrangement of the eligible backlog orders in which no order stands
    before one with a smaller key, and in which the orders that have the
    same key come in their backlog order. *)
Theorem sorted_order_ranking self l :
  sorted_order self = Ok l →
  l ≡ₚ filter (eligible self) (orders self) ∧
  StronglySorted ranks_before l ∧
  ∀ k, filter (λ o, sort_key o = Ok k) l
       = filter (λ o, sort_key o = Ok k) (filter (eligible self) (orders self)).
Proof.
  unfold sorted_order, available_order, sorted. intros H.
  apply bind_Ok in H as (avail & Havail & H).
  apply bind_Ok in H as (keyed & Hkeyed & H).
  apply bind_Ok in H as (s & Hs & [= <-]).
  apply (sort_m_Ok key_lt key_ltb key_lt_ltb) in Hs. subst s.
  apply filter_m_Ok in Havail as [_ Havail].
  assert (avail = filter (eligible self) (orders self)) as <-.
  { rewrite Havail. by apply list_filter_iff. }
  apply map_m_Ok in Hkeyed.
  assert (Forall (λ y, sort_key y.2 = Ok y.1) keyed ∧ keyed.*2 = avail)
    as [Hkeys Hsnd].
  { clear Havail. induction Hkeyed as [|o y avail keyed Hy _ [IH1 IH2]];
      [by split|].
    apply keyed_spec in Hy as [Hk Ho]. split.
    - constructor; [by rewrite Ho|done].
    - by rewrite fmap_cons, Ho, IH2. }
  assert (Forall (λ y, sort_key y.2 = Ok y.1) (isort key_ltb keyed)) as Hkeys'.
  { by rewrite isort_perm. }
  split_and!.
  - by rewrite isort_perm, Hsnd.
  - apply keyed_ranked; [done|].
    apply (isort_sorted key_ltb key_ltb_irrefl key_ltb_trans key_ltb_total).
  - intros k. rewrite <-Hsnd, !keyed_filter by done.
    by rewrite (isort_stable key_ltb key_ltb_irrefl).
Qed.

Lemma sorted_order_ranking_witness :
  [mk_order "bread" 1 "perishable" "2024-01-05";
   mk_order "apple" 2 "perishable" "2024-01-05";
   mk_order "apple" 1 "non_perishable" "2024-01-01"]
  ≡ₚ filter (eligible tie_break) (orders tie_break) ∧
  StronglySorted ranks_before
    [mk_order "bread" 1 "perishable" "2024-01-05";
     mk_order "apple" 2 "perishable" "2024-01-05";
     mk_order "apple" 1 "non_perishable" "2024-01-01"] ∧
  ∀ k, filter (λ o, sort_key o = Ok k)
         [mk_order "bread" 1 "perishable" "2024-01-05";
          mk_order "apple" 2 "perishable" "2024-01-05";
          mk_order "apple" 1 "non_perishable" "2024-01-01"]
       = filter (λ o, sort_key o = Ok k)
           (filter (eligible tie_break) (orders tie_break)).
Proof. apply sorted_order_ranking. by vm_compute. Defined.

(** ** Consecutive calls: where the stock goes *)

Lemma next_orders_S n self :
  next_orders (S n) self
  = ((next_order self).1 :: (next_orders n (next_order self).2).1,
     (next_orders n (next_order self).2).2).
Proof.
  simpl. destruct (next_order self) as [r self1]. simpl.
  by destruct (next_orders n self1).
Qed.

(** X6: after any number of consecutive calls the backlog is the same, no
    inventory entry has appeared or gone, and each entry holds what it held
    minus the quantities of the orders returned for its item. *)
Theorem next_orders_conservation n self i :
  orders (next_orders n self).2 = orders self ∧
  inventory (next_orders n self).2 !! i
  = (λ s, s - debits i (next_orders n self).1) <$> inventory self !! i.
Proof.
  revert self. induction n as [|n IH]; intros self.
  - simpl. split; [done|]. destruct (inventory self !! i); simpl; [|done].
    f_equal; lia.
  - rewrite next_orders_S. simpl.
    destruct (IH (next_order self).2) as [IHo IHi]. rewrite IHo, IHi.
    destruct (next_order self) as [[o|e] self1] eqn:Hcall; simpl.
    + apply next_order_Ok in Hcall as [_ (j & q & s & Hj & Hq & Hs & ->)].
      simpl. split; [done|]. rewrite Hj, Hq.
      destruct (decide (j = i)) as [->|Hne].
      * rewrite lookup_insert_eq, Hs. simpl. f_equal; lia.
      * rewrite lookup_insert_ne by done.
        destruct (inventory self !! i); simpl; [|done]. f_equal; lia.
    + apply next_order_Raise in Hcall as ->. split; [done|].
      destruct (inventory self !! i); simpl; [|done]. f_equal; lia.
Qed.

Lemma total_stock_insert inv i s s' :
  inv !! i = Some s → total_stock (<[i := s']> inv) = total_stock inv - s + s'.
Proof.
  intros Hs. unfold total_stock.
  rewrite (map_fold_delete_L _ _ i s inv); [|intros; lia|done].
  rewrite <-insert_delete_eq.
  rewrite map_fold_insert_L; [lia|intros; lia|apply lookup_delete_eq].
Qed.

Lemma total_stock_nonneg inv :
  map_Forall (λ _ s, 0 ≤ s) inv → 0 ≤ total_stock inv.
Proof.
  unfold total_stock.
  apply (map_fold_weak_ind
           (λ (r : Z) (m : gmap value Z),
              map_Forall (λ _ s, 0 ≤ s) m → 0 ≤ r)); [done|].
  intros i s m r Hi IH Hall.
  apply map_Forall_insert in Hall as [? ?]; [|done].
  specialize (IH ltac:(done)). lia.
Qed.

(** X7: when every backlog order asks for a positive quantity and no
    inventory quantity is negative, consecutive calls cannot return more
    orders than there are units in stock: each returned order takes at
    least one unit and the stock never goes below zero. *)
Theorem next_orders_successes_bounded n self :
  Forall (λ o, ∀ q, o !! "quantity" = Some (VInt q) → 0 < q) (orders self) →
  map_Forall (λ _ s, 0 ≤ s) (inventory self) →
  Z.of_nat (length (filter is_Ok (next_orders n self).1))
  + total_stock (inventory (next_orders n self).2)
  ≤ total_stock (inventory self) ∧
  map_Forall (λ _ s, 0 ≤ s) (inventory (next_orders n self).2).
Proof.
  revert self. induction n as [|n IH]; intros self Hpos Hnn.
  - simpl. split; [lia|done].
  - rewrite next_orders_S. cbn [fst snd].
    destruct (next_order self) as [[o|e] self1] eqn:Hcall; cbn [fst snd].
    + apply next_order_Ok in Hcall
        as [Hsel (i & q & s & Hi & Hq & Hs & ->)].
      destruct (picks_eligible _ _ (selected_picks _ _ Hsel))
        as (Hin & i' & q' & Hi' & Hq' & Hle).
      assert (i' = i) as -> by congruence.
      assert (q' = q) as -> by congruence.
      unfold dict_get in Hle. rewrite Hs in Hle. simpl in Hle.
      rewrite Forall_forall in Hpos. pose proof (Hpos o Hin q Hq) as Hq0.
      destruct (IH (debited self i (s - q))) as [IHle IHnn].
      * by apply Forall_forall.
      * simpl. apply map_Forall_insert_2; [lia|done].
      * split; [|done]. rewrite filter_cons_True by done.
        rewrite length_cons. unfold debited in *. simpl in IHle.
        rewrite (total_stock_insert _ _ s) in IHle by done. lia.
    + apply next_order_Raise in Hcall as ->.
      destruct (IH self Hpos Hnn) as [IHle IHnn].
      split; [|done]. rewrite filter_cons_False; [done|]. simpl. tauto.
Qed.

Lemma next_orders_successes_bounded_witness :
  Z.of_nat (length (filter is_Ok (next_orders 4 two_apples).1))
  + total_stock (inventory (next_orders 4 two_apples).2)
  ≤ total_stock (inventory two_apples) ∧
  map_Forall (λ _ s, 0 ≤ s) (inventory (next_orders 4 two_apples).2).
Proof.
  apply next_orders_successes_bounded.
  - unfold two_apples. cbn [orders].
    repeat (constructor;
      [intros q H; vm_compute in H; injection H as <-; lia|]).
    constructor.
  - apply map_Forall_singleton. lia.
Defined.

(** ** The handlers of app/routes.py *)

Lemma complete_spec d :
  complete d = true ↔ filter (λ f, d !! f = None) required_field = [].
Proof.
  unfold complete, required_field. rewrite !filter_cons, filter_nil. simpl.
  destruct (d !! "item"), (d !! "quantity"), (d !! "category"),
    (d !! "timestamp"); repeat case_decide; try done;
    by (split; intros; try done; exfalso; eauto).
Qed.

Lemma complete_truthy d : complete d = true → dict_truthy d = true.
Proof.
  unfold complete, required_field, dict_truthy. simpl.
  intros [[x Hx]%bool_decide_eq_true _]%andb_true_iff.
  apply negb_true_iff, bool_decide_eq_false. intros ->.
  by rewrite lookup_empty in Hx.
Qed.

Lemma submit_order_complete d picker :
  complete d = true →
  submit_order d picker
  = (Ok tt, {| orders := orders picker ++ [d]; inventory := inventory picker |}).
Proof. intros H%complete_spec. unfold submit_order. by rewrite H. Qed.

Lemma submit_order_incomplete d picker :
  complete d = false →
  submit_order d picker
  = (Raise (ValueError ("Missing field:" +:+
              String.concat "," (filter (λ f, d !! f = None) required_field))),
     picker).
Proof.
  intros H. unfold submit_order.
  destruct (filter (λ f, d !! f = None) required_field) eqn:Hm; [|done].
  apply complete_spec in Hm. congruence.
Qed.


Lemma selected_truthy self o : selected self = Ok o → dict_truthy o = true.
Proof.
  intros (_ & i & q & Hi & _)%selected_picks%picks_eligible.
  unfold dict_truthy. apply negb_true_iff, bool_decide_eq_false. intros ->.
  by rewrite lookup_empty in Hi.
Qed.

(** X9: [GET /next_order] answers 200 with the order exactly when the
    method returns one, and the generic 500 error, with the picker left as
    it was, whenever the method raises; this is also the answer when no
    order is eligible.  The "No orders available" message is never sent:
    what the method returns is never an empty dict. *)
Theorem next_order_route_outcome picker :
  ((∃ o picker', next_order picker = (Ok o, picker') ∧
                 routes.next_order picker
                 = (jsonify "order_to_fulfill" (POrder o) 200, picker')) ∨
   (∃ e, next_order picker = (Raise e, picker) ∧
         routes.next_order picker = (next_order_failed, picker))) ∧
  (available_order picker = Ok [] →
   routes.next_order picker = (next_order_failed, picker)) ∧
  (routes.next_order picker).1.(body).1 ≠ "message".
Proof.
  assert ((∃ o picker', next_order picker = (Ok o, picker') ∧
                 routes.next_order picker
                 = (jsonify "order_to_fulfill" (POrder o) 200, picker')) ∨
   (∃ e, next_order picker = (Raise e, picker) ∧
         routes.next_order picker = (next_order_failed, picker))) as Hcases.
  { unfold routes.next_order.
    destruct (next_order picker) as [[o|e] picker'] eqn:Hcall.
    - left. exists o, picker'. split; [done|].
      apply next_order_Ok in Hcall as [Hsel _].
      by rewrite (selected_truthy _ _ Hsel).
    - right. apply next_order_Raise in Hcall as ->. by exists e. }
  split_and!; [done| |].
  - intros Hnil. unfold routes.next_order.
    by rewrite (next_order_selected_Raise _ _ (available_order_nil _ Hnil)).
  - by destruct Hcases as [(o & p' & _ & ->)|(e & _ & ->)].
Qed.

(** ** Sessions: requests served one after the other *)

Lemma serve_cons r rs picker :
  serve (r :: rs) picker
  = ((handle r picker).1 :: (serve rs (handle r picker).2).1,
     (serve rs (handle r picker).2).2).
Proof.
  simpl. destruct (handle r picker) as [a picker1]. simpl.
  by destruct (serve rs picker1).
Qed.

Lemma add_order_complete d picker :
  complete d = true →
  routes.add_order (Some d) picker
  = (jsonify "message" (PStr "order added successfully") 201,
     {| orders := orders picker ++ [d]; inventory := inventory picker |}).
Proof.
  intros Hc. unfold routes.add_order, truthy.
  by rewrite (complete_truthy _ Hc), submit_order_complete.
Qed.

Lemma add_order_refused data picker :
  accepted (POST_add_order data) = None →
  (routes.add_order data picker).2 = picker.
Proof.
  unfold accepted, routes.add_order, truthy.
  destruct data as [d|]; [|done].
  destruct (complete d) eqn:Hc; [done|intros _].
  destruct (dict_truthy d); [|done].
  by rewrite submit_order_incomplete.
Qed.

Lemma next_order_frame self :
  orders (next_order self).2 = orders self ∧
  dom (inventory (next_order self).2) = dom (inventory self).
Proof.
  destruct (next_order self) as [[o|e] self'] eqn:Hcall; simpl.
  - apply next_order_Ok in Hcall as [_ (i & q & s & _ & _ & Hs & ->)].
    simpl. split; [done|]. rewrite dom_insert_L.
    apply (elem_of_dom_2 (D := gset value)) in Hs. set_solver.
  - by apply next_order_Raise in Hcall as ->.
Qed.

Lemma next_order_route_state picker :
  (routes.next_order picker).2 = (next_order picker).2.
Proof.
  unfold routes.next_order.
  destruct (next_order picker) as [[o|e] picker']; [|done].
  by destruct (dict_truthy o).
Qed.

Lemma handle_frame r picker :
  orders (handle r picker).2
  = orders picker ++ from_option (λ d, [d]) [] (accepted r) ∧
  dom (inventory (handle r picker).2) = dom (inventory picker).
Proof.
  destruct r as [data|]; simpl handle.
  - destruct (accepted (POST_add_order data)) as [d|] eqn:Hacc.
    + unfold accepted in Hacc. destruct data as [d'|]; [|done].
      destruct (complete d') eqn:Hc; [|done]. injection Hacc as ->.
      by rewrite add_order_complete.
    + rewrite add_order_refused by done. simpl. by rewrite app_nil_r.
  - rewrite next_order_route_state. simpl. rewrite app_nil_r.
    apply next_order_frame.
Qed.


(** X11: no request creates or deletes an inventory entry: the items the
    inventory lists after a session are those it listed before. *)
Theorem serve_inventory_keys rs picker :
  dom (inventory (serve rs picker).2) = dom (inventory picker).
Proof.
  revert picker. induction rs as [|r rs IH]; intros picker; [done|].
  rewrite serve_cons. simpl. rewrite IH.
  by destruct (handle_frame r picker) as [_ ->].
Qed.

Lemma filter_m_raises {A} (p : A → result bool) l x e :
  x ∈ l → p x = Raise e → ∃ e', filter_m p l = Raise e'.
Proof.
  induction 1 as [x l|x y l _ IH]; intros Hx; simpl.
  - rewrite Hx. by eexists.
  - destruct (p y) as [b|e']; simpl; [|by eexists].
    destruct (IH Hx) as [e' ->]. by eexists.
Qed.

Lemma unreadable_next_order self o :
  o ∈ orders self → asks_quantity o = false →
  ∃ e, next_order self = (Raise e, self).
Proof.
  intros Hin Hbad.
  assert (∃ e, is_available (inventory self) o = Raise e) as [e He].
  { unfold asks_quantity in Hbad. unfold is_available, getitem.
    destruct (o !! "item"); simpl; [|by eexists].
    destruct (o !! "quantity") as [[q|s]|]; simpl; try done; by eexists. }
  destruct (filter_m_raises _ _ _ _ Hin He) as [e' Hf].
  exists e'. apply next_order_selected_Raise.
  unfold selected, sorted_order, available_order. by rewrite Hf.
Qed.

Lemma serve_unreadable rs picker o n :
  o ∈ orders picker → asks_quantity o = false →
  rs !! n = Some GET_next_order →
  (serve rs picker).1 !! n = Some next_order_failed.
Proof.
  revert picker n. induction rs as [|r rs IH]; intros picker n Hin Hbad Hn;
    [done|].
  rewrite serve_cons. simpl. destruct n as [|n]; simpl in *.
  - injection Hn as ->. simpl.
    destruct (unreadable_next_order _ _ Hin Hbad) as [e He].
    unfold routes.next_order. by rewrite He.
  - apply IH; [|done..].
    destruct (handle_frame r picker) as [-> _]. set_solver.
Qed.

(** X12: one accepted order can stop the service.  A POST whose body has
    the four required keys but a string for its quantity is answered 201,
    and from then on every [GET /next_order] is answered with the generic
    500 error, whatever else is posted in between: the order stays in the
    backlog and the comparison of its quantity with the stock raises on
    every call. *)
Theorem string_quantity_blocks d s rs picker :
  complete d = true → d !! "quantity" = Some (VStr s) →
  (serve (POST_add_order (Some d) :: rs) picker).1 !! 0%nat
  = Some (jsonify "message" (PStr "order added successfully") 201) ∧
  ∀ n, rs !! n = Some GET_next_order →
       (serve (POST_add_order (Some d) :: rs) picker).1 !! S n
       = Some next_order_failed.
Proof.
  intros Hc Hq. rewrite serve_cons.
  change (handle (POST_add_order (Some d)) picker)
    with (routes.add_order (Some d) picker).
  rewrite add_order_complete by done. simpl. split; [done|].
  intros n Hn. apply (serve_unreadable _ _ d); [| |done].
  - simpl. set_solver.
  - unfold asks_quantity. rewrite Hq. by destruct (d !! "item").
Qed.

Lemma filter_m_skip {A} (p : A → result bool) l l' :
  Forall (λ x, p x = Ok false) l → filter_m p (l ++ l') = filter_m p l'.
Proof.
  induction 1 as [|x l Hx _ IH]; simpl; [done|].
  rewrite Hx. simpl. rewrite IH. by destruct (filter_m p l').
Qed.

(** X13: submitting and picking compose.  On a picker none of whose backlog
    orders is covered by the stock, a POST of an order with the four keys,
    an integer quantity and an item whose inventory entry covers it,
    followed by a GET, is answered 201 and then 200 with that very order;
    the order is then at the end of the backlog and its quantity is off the
    entry of its item. *)
Theorem post_then_get d i q c t s picker :
  Forall (λ o, is_available (inventory picker) o = Ok false) (orders picker) →
  d !! "item" = Some i → d !! "quantity" = Some (VInt q) →
  d !! "category" = Some c → d !! "timestamp" = Some t →
  inventory picker !! i = Some s → q ≤ s →
  serve [POST_add_order (Some d); GET_next_order] picker
  = ([jsonify "message" (PStr "order added successfully") 201;
      jsonify "order_to_fulfill" (POrder d) 200],
     {| orders := orders picker ++ [d];
        inventory := <[i := s - q]> (inventory picker) |}).
Proof.
  intros Hnone Hi Hq Hc Ht Hs Hle.
  assert (complete d = true) as Hcomplete.
  { unfold complete, required_field. simpl. rewrite Hi, Hq, Hc, Ht. done. }
  set (picker1 := {| orders := orders picker ++ [d];
                     inventory := inventory picker |}).
  assert (selected picker1 = Ok d) as Hsel.
  { unfold selected, sorted_order, available_order. simpl.
    rewrite filter_m_skip by done. simpl.
    assert (is_available (inventory picker) d = Ok true) as ->.
    { apply is_available_spec. exists i, q. split_and!; [done..|].
      symmetry. apply Z.leb_le. unfold dict_get. by rewrite Hs. }
    simpl. unfold sorted. simpl.
    assert (sort_key d = Ok (priority c, t)) as ->
      by (apply sort_key_spec; eauto).
    done. }
  assert (next_order picker1 = (Ok d, debited picker1 i (s - q))) as Hnext.
  { apply next_order_Ok. split; [done|]. by exists i, q, s. }
  rewrite serve_cons.
  change (handle (POST_add_order (Some d)) picker)
    with (routes.add_order (Some d) picker).
  rewrite add_order_complete by done. cbn [fst snd]. fold picker1.
  rewrite serve_cons.
  change (handle GET_next_order picker1) with (routes.next_order picker1).
  unfold routes.next_order. rewrite Hnext, (selected_truthy _ _ Hsel).
  done.
Qed.

Lemma post_then_get_witness :
  serve [POST_add_order (Some (mk_order "Milk" 2 "Perishable" "2024-02-01"));
         GET_next_order] routes_picker
  = ([jsonify "message" (PStr "order added successfully") 201;
      jsonify "order_to_fulfill"
        (POrder (mk_order "Milk" 2 "Perishable" "2024-02-01")) 200],
     {| orders := orders routes_picker
                  ++ [mk_order "Milk" 2 "Perishable" "2024-02-01"];
        inventory := <[VStr "Milk" := 5 - 2]> (inventory routes_picker) |}).
Proof.
  apply (post_then_get _ (VStr "Milk") 2 (VStr "Perishable")
           (VStr "2024-02-01") 5).
  - constructor.
  - reflexivity.
  - reflexivity.
  - reflexivity.
  - reflexivity.
  - reflexivity.
  - lia.
Defined.

Lemma string_quantity_blocks_witness :
  (serve (POST_add_order
            (Some (<["quantity" := VStr "2"]>
                     (mk_order "Milk" 2 "perishable" "2024-02-01")))
          :: [POST_add_order (Some (mk_order "apple" 1 "perishable" "2024-02-02"));
              GET_next_order]) routes_picker).1 !! 0%nat
  = Some (jsonify "message" (PStr "order added successfully") 201) ∧
  ∀ n, [POST_add_order (Some (mk_order "apple" 1 "perishable" "2024-02-02"));
        GET_next_order] !! n = Some GET_next_order →
       (serve (POST_add_order
                 (Some (<["quantity" := VStr "2"]>
                          (mk_order "Milk" 2 "perishable" "2024-02-01")))
               :: [POST_add_order
                     (Some (mk_order "apple" 1 "perishable" "2024-02-02"));
                   GET_next_order]) routes_picker).1 !! S n
       = Some next_order_failed.
Proof. apply (string_quantity_blocks _ "2"); reflexivity. Defined.

(** ** A new order against the pending ones *)

Lemma key_ltb_lt_le a b c :
  key_ltb a b = true → key_ltb c b = false → key_ltb a c = true.
Proof.
  intros Hab Hcb. destruct (key_ltb a c) eqn:Hac; [done|].
  rewrite (not_ltb_trans key_ltb key_ltb_trans key_ltb_total b c a) in Hab;
    done.
Qed.

Lemma wf_order_complete str_ts c : wf_order str_ts c = true → complete c = true.
Proof.
  intros (i & q & cat & t & Hi & Hq & Hc & Ht & _)%wf_order_spec.
  unfold complete, required_field. simpl. by rewrite Hi, Hq, Hc, Ht.
Qed.

Lemma well_formed_submit str_ts self c :
  well_formed str_ts self = true → wf_order str_ts c = true →
  well_formed str_ts
    {| orders := orders self ++ [c]; inventory := inventory self |} = true.
Proof.
  unfold well_formed. simpl. intros Hs Hc.
  rewrite forallb_app, Hs. simpl. by rewrite Hc.
Qed.

(** X14: a submitted order does not overtake the pending winner unless its
    key is strictly smaller.  If [next_order] would return [o], and the
    candidate is not eligible or has a key that is not below [o]'s (equal
    keys included), then after the submission [next_order] still returns
    [o]. *)
Theorem submit_keeps_winner str_ts self c o self1 :
  well_formed str_ts self = true → wf_order str_ts c = true →
  next_order self = (Ok o, self1) →
  (eligible self c →
   ∀ k kc, sort_key o = Ok k → sort_key c = Ok kc → key_lt kc k = Ok false) →
  next_order (submit_order c self).2
  = (Ok o, {| orders := orders self ++ [c]; inventory := inventory self1 |}).
Proof.
  intros Hwf Hwfc Hcall Hc.
  rewrite submit_order_complete by (by eapply wf_order_complete). simpl.
  apply next_order_Ok in Hcall as [Hsel (i & q & n & Hi & Hq & Hn & ->)].
  apply next_order_Ok. split; [|by exists i, q, n].
  apply (picks_selected str_ts); [by apply well_formed_submit|].
  destruct (selected_picks _ _ Hsel) as (l1 & l2 & k & Hl & Ho & Hk & H1 & H2).
  exists l1, (l2 ++ [c]), k. simpl. split_and!; try done.
  - by rewrite Hl, <-app_assoc.
  - apply Forall_app. split; [done|]. constructor; [|constructor].
    intros He.
    apply wf_order_spec in Hwfc as (_ & _ & cat & t & _ & _ & Hcat & Ht & _).
    assert (sort_key c = Ok (priority cat, t)) as Hkc
      by (apply sort_key_spec; eauto).
    exists (priority cat, t). split; [done|].
    symmetry. apply key_lt_ltb. by apply Hc.
Qed.

Lemma submit_keeps_winner_witness :
  next_order
    (submit_order (mk_order "apple" 1 "perishable" "2024-01-05") tie_break).2
  = (Ok (mk_order "bread" 1 "perishable" "2024-01-05"),
     {| orders := orders tie_break
                  ++ [mk_order "apple" 1 "perishable" "2024-01-05"];
        inventory := inventory (debited tie_break (VStr "bread") 11) |}).
Proof.
  apply (submit_keeps_winner true).
  - reflexivity.
  - reflexivity.
  - by vm_compute.
  - intros _ k kc [= <-] [= <-]. reflexivity.
Defined.

(** X15: a submitted order with a strictly smaller key goes first.  If
    [next_order] would return [o], and the candidate is covered by the
    entry of its item and has a key below [o]'s, then after the submission
    [next_order] returns the candidate and debits it. *)
Theorem submit_overtakes str_ts self c o self1 k kc i q n :
  well_formed str_ts self = true → wf_order str_ts c = true →
  next_order self = (Ok o, self1) →
  sort_key o = Ok k → sort_key c = Ok kc → key_lt kc k = Ok true →
  c !! "item" = Some i → c !! "quantity" = Some (VInt q) →
  inventory self !! i = Some n → q ≤ n →
  next_order (submit_order c self).2
  = (Ok c, {| orders := orders self ++ [c];
              inventory := <[i := n - q]> (inventory self) |}).
Proof.
  intros Hwf Hwfc Hcall Hk Hkc Hlt Hi Hq Hn Hle.
  rewrite submit_order_complete by (by eapply wf_order_complete). simpl.
  apply next_order_Ok in Hcall as [Hsel _].
  apply selected_picks in Hsel as Hpicks.
  apply next_order_Ok. split; [|by exists i, q, n].
  apply (picks_selected str_ts); [by apply well_formed_submit|].
  exists (orders self), [], kc. simpl. split_and!; [done| |done| |constructor].
  - apply is_available_spec. exists i, q. split_and!; [done..|].
    symmetry. apply Z.leb_le. unfold dict_get. simpl. by rewrite Hn.
  - apply Forall_forall. intros o' Hin He.
    rewrite well_formed_spec in Hwf.
    pose proof (Hwf _ Hin) as Hwf'. apply wf_order_spec in Hwf'.
    destruct Hwf' as (_ & _ & cat & t & _ & _ & Hcat & Ht & _).
    assert (sort_key o' = Ok (priority cat, t)) as Hk'
      by (apply sort_key_spec; eauto).
    exists (priority cat, t). split; [done|].
    apply (key_ltb_lt_le _ k).
    + symmetry. by apply key_lt_ltb.
    + by apply (picks_min self o o').
Qed.

Lemma submit_overtakes_witness :
  next_order
    (submit_order (mk_order "apple" 1 "perishable" "2024-01-04") tie_break).2
  = (Ok (mk_order "apple" 1 "perishable" "2024-01-04"),
     {| orders := orders tie_break
                  ++ [mk_order "apple" 1 "perishable" "2024-01-04"];
        inventory := <[VStr "apple" := 29 - 1]> (inventory tie_break) |}).
Proof.
  apply (submit_overtakes true tie_break _
           (mk_order "bread" 1 "perishable" "2024-01-05")
           (debited tie_break (VStr "bread") 11)
           (0, VStr "2024-01-05") (0, VStr "2024-01-04")).
  - reflexivity.
  - reflexivity.
  - by vm_compute.
  - reflexivity.
  - reflexivity.
  - reflexivity.
  - reflexivity.
  - reflexivity.
  - reflexivity.
  - lia.
Defined.


